(** * picasso.clusterer: local-maxima clustering, frame analysis and
      cluster-centre aggregation

    A shallow embedding of [src/picasso/clusterer.py].

    - Python exceptions are the [Err] results of a small error monad.
    - numpy index arrays ([lm], [labels]) are [list Z], read with stdpp's
      lookup and written with stdpp's insert; an index outside the array
      raises [IndexError], as in numpy. The entries never leave the range
      of their dtypes ([int8] holds 0 and 1, [int32] holds -1 and the
      enumeration indices of local maxima), so no wrap-around is modelled.
    - The neighbour lists of scipy's [KDTree.query_ball_tree] are a
      [list (list nat)]; the tree is an external library and enters
      [_cluster] as a function argument.
    - Frame analysis works on integer frame numbers; the float64 mean,
      thresholds and histogram edges are exact rationals.
    - Cluster centres are computed in exact real arithmetic extended with
      the IEEE infinities and NaN, since numpy divides by zero without
      raising.

    The first part holds the embedding, the second the properties and the
    inputs used below, the third the proofs. *)

From Stdlib Require Import ZArith QArith Qround Lia Reals Lra.
From Stdlib Require Lqa.
From stdpp Require Import base list sorting.

Open Scope Z_scope.

(** ** Exceptions and the error monad *)

Inductive exn : Set :=
  | IndexError          (* subscript outside a list or array *)
  | ValueError          (* max() of an empty sequence, mismatched lengths *)
  | ZeroDivisionError   (* numpy.average: weights sum to zero *)
  | UnboundLocalError   (* a local name read before any assignment *)
  | DegenerateCluster.  (* the condition of the specification; never raised *)

Inductive result (A : Type) : Type :=
  | Ok (a : A)
  | Err (e : exn).
Arguments Ok {A} a.
Arguments Err {A} e.

Definition bind {A B : Type} (m : result A) (k : A → result B) : result B :=
  match m with
  | Ok a => k a
  | Err e => Err e
  end.

Notation "x <- m ;; k" := (bind m (λ x, k))
  (at level 100, m at next level, right associativity).

(** A [for x in xs: st = body st x] loop whose body may raise. *)
Fixpoint for_each {S B : Type} (body : S → B → result S)
    (xs : list B) (st : S) : result S :=
  match xs with
  | [] => Ok st
  | x :: xs' => st' <- body st x ;; for_each body xs' st'
  end.

(** [[f(x) for x in xs]] with an [f] that may raise. *)
Fixpoint comprehension {A B : Type} (f : A → result B)
    (xs : list A) : result (list B) :=
  match xs with
  | [] => Ok []
  | x :: xs' => y <- f x ;; ys <- comprehension f xs' ;; Ok (y :: ys)
  end.

(** [a[i]] and [a[i] = v] on a list or a one-dimensional array. *)
Definition getitem {A : Type} (a : list A) (i : nat) : result A :=
  match a !! i with
  | Some v => Ok v
  | None => Err IndexError
  end.

Definition setitem {A : Type} (a : list A) (i : nat) (v : A)
    : result (list A) :=
  if decide (i < length a)%nat then Ok (<[i:=v]> a) else Err IndexError.

(** Python's built-in [max] on a list of ints. *)
Definition py_max (l : list nat) : result nat :=
  match l with
  | [] => Err ValueError
  | x :: l' => Ok (foldl Nat.max x l')
  end.

(** [np.where(a == v)[0]]: the positions holding [v], ascending. *)
Fixpoint where_from (start : nat) (v : Z) (a : list Z) : list nat :=
  match a with
  | [] => []
  | x :: a' =>
      if decide (x = v) then start :: where_from (S start) v a'
      else where_from (S start) v a'
  end.
Definition np_where_eq (v : Z) (a : list Z) : list nat := where_from 0 v a.

(** [enumerate(xs)]. *)
Definition enumerate {A : Type} (xs : list A) : list (Z * A) :=
  imap (λ k x, (Z.of_nat k, x)) xs.

(** ** The local-maxima labeler ([_cluster], lines 167-191) *)

Section Labeler.
(** [neighbors = tree.query_ball_tree(tree, radius)]. *)
Variable neighbors : list (list nat).
Variable min_locs : Z.

(** [len(neighbors[j])]. *)
Definition neighbor_count (j : nat) : result nat :=
  nb <- getitem neighbors j ;; Ok (length nb).

(** The test of lines 171-176 for one point [i]. *)
Definition is_local_maximum (i : nat) : result bool :=
  idx <- getitem neighbors i ;;
  let n := length idx in
  if decide (Z.of_nat n > min_locs) then
    counts <- comprehension neighbor_count idx ;;
    m <- py_max counts ;;
    Ok (bool_decide (n = m))
  else Ok false.

(** Lines 169-176: [lm[i] = 1] for the points that pass the test. *)
Definition mark_local_maximum (lm : list Z) (i : nat) : result (list Z) :=
  b <- is_local_maximum i ;;
  if b then setitem lm i 1 else Ok lm.

Definition local_maxima : result (list Z) :=
  let N := length neighbors in
  for_each mark_local_maximum (seq 0 N) (replicate N 0).

(** The body of the inner loop, lines 185-191, for the local maximum
    [i], its enumeration index [count] and the neighbour [j]. *)
Definition visit (count : Z) (i : nat) (labels : list Z) (j : nat)
    : result (list Z) :=
  li <- getitem labels i ;;
  if decide (li = -1) then
    labels1 <- (if decide (j = 0%nat) then setitem labels i count
               else Ok labels) ;;
    setitem labels1 j count
  else
    lj <- getitem labels j ;;
    if decide (lj = -1) then setitem labels j li else Ok labels.

(** Lines 184-191: one local maximum. *)
Definition process_local_maximum (labels : list Z) (ci : Z * nat)
    : result (list Z) :=
  let '(count, i) := ci in
  nb <- getitem neighbors i ;;
  for_each (visit count i) nb labels.

(** Lines 181-191. *)
Definition propagate_labels (lm : list Z) : result (list Z) :=
  let N := length neighbors in
  let lm_idx := np_where_eq 1 lm in
  for_each process_local_maximum (enumerate lm_idx) (replicate N (-1)).

(** Lines 167-191: the labels before any frame analysis. *)
Definition label_points : result (list Z) :=
  lm <- local_maxima ;; propagate_labels lm.
End Labeler.

(** Brute-force radius query on integer coordinates, standing for the
    external KDTree in the examples: for every point its neighbours
    (itself included) within distance [sqrt r2], by ascending index. *)
Definition sqdist (p q : Z * Z) : Z :=
  (p.1 - q.1) * (p.1 - q.1) + (p.2 - q.2) * (p.2 - q.2).

Definition ball (X : list (Z * Z)) (r2 : Z) (p : Z * Z) : list nat :=
  (filter (λ jq, sqdist p jq.2 <= r2) (imap (λ j q, (j, q)) X)).*1.

Definition query_ball (X : list (Z * Z)) (r2 : Z) : list (list nat) :=
  map (ball X r2) X.

(** Points on the x axis. *)
Definition line (xs : list Z) : list (Z * Z) := map (λ x, (x, 0)) xs.

(** ** Frame analysis ([_frame_analysis], [frame_analysis])

    Frame numbers are integers; the float64 quantities derived from them
    (the mean frame, the thresholds [0.2 * n_frames], [0.8 * n_frames],
    [0.8 * n_locs] and the bin edges of the histogram) are modelled
    exactly, as rationals: rounding is not part of the model. *)

Definition Qlt_bool (x y : Q) : bool := negb (Qle_bool y x).

(** [a.sum()], [a.mean()] and [a.max()] of an integer array. *)
Definition np_sum (a : list Z) : Z := foldr Z.add 0 a.

Definition np_mean (a : list Z) : Q :=
  (inject_Z (np_sum a) / inject_Z (Z.of_nat (length a)))%Q.

Definition np_max (a : list Z) : result Z :=
  match a with
  | [] => Err ValueError
  | x :: a' => Ok (foldl Z.max x a')
  end.

(** [np.histogram(a, bins, range=(first, last))[0]] with equal-width
    bins: a value [v] of the range falls in bin
    [floor((v - first) * bins / (last - first))], the last bin being
    closed on the right; values outside the range are not counted. *)
Definition bin_of (first last : Q) (bins : nat) (v : Z) : Z :=
  if Qeq_bool (inject_Z v) last then Z.of_nat bins - 1
  else Qfloor ((inject_Z v - first) * inject_Z (Z.of_nat bins)
               / (last - first))%Q.

Definition in_range (first last : Q) (v : Z) : bool :=
  Qle_bool first (inject_Z v) && Qle_bool (inject_Z v) last.

Definition histogram_in (first last : Q) (bins : nat) (a : list Z)
    : list nat :=
  let kept := filter (λ v, in_range first last v = true) a in
  map (λ b, length (filter (λ v, bin_of first last bins v = Z.of_nat b) kept))
      (seq 0 bins).

(** The range numpy takes when none is given: that of the data, widened
    by one half on each side when the data hold a single value, and
    [(0, 1)] for no data. *)
Definition data_range (a : list Z) : Q * Q :=
  match a with
  | [] => (0, 1)%Q
  | x :: a' =>
      let lo := foldl Z.min x a' in
      let hi := foldl Z.max x a' in
      if decide (lo = hi)
      then ((inject_Z lo - (1 # 2))%Q, (inject_Z hi + (1 # 2))%Q)
      else (inject_Z lo, inject_Z hi)
  end.

(** [np.histogram(a, bins=bins)[0]]. *)
Definition np_histogram (a : list Z) (bins : nat) : list nat :=
  let '(first, last) := data_range a in histogram_in first last bins a.

(** The two halves of the test of lines 90-94. *)
Definition range_rejects (mean_frame : Q) (n_frames : Z) : bool :=
  Qlt_bool mean_frame ((2 # 10) * inject_Z n_frames)%Q
  || Qlt_bool ((8 # 10) * inject_Z n_frames)%Q mean_frame.

Definition burst_rejects (max_locs_bin n_locs : nat) : bool :=
  Qlt_bool ((8 # 10) * inject_Z (Z.of_nat n_locs))%Q
           (inject_Z (Z.of_nat max_locs_bin)).

(** Lines 86-87: [locs_binned.max()] for [bins=21]. *)
Definition most_populated_bin (frame : list Z) : nat :=
  let locs_binned := np_histogram frame 21 in
  foldr Nat.max 0%nat locs_binned.

(** [_frame_analysis(frame, n_frames)], [frame] being the frames of one
    group. On an empty group (which [groupby] never produces) the mean is
    NaN and the histogram is empty, so no comparison holds and the
    result is 1. *)
Definition _frame_analysis (frame : list Z) (n_frames : Z) : Z :=
  match frame with
  | [] => 1
  | _ =>
      let mean_frame := np_mean frame in
      let n_locs := length frame in
      let max_locs_bin := most_populated_bin frame in
      if range_rejects mean_frame n_frames
         || burst_rejects max_locs_bin n_locs
      then 0 else 1
  end.

(** The frames of the points labelled [c], in input order: one group of
    [pd.Series(frame, index=labels).groupby(level 0)]. *)
Definition group_frames (labels frame : list Z) (c : Z) : list Z :=
  (filter (λ p : Z * Z, p.1 = c) (zip labels frame)).*2.

(** The group keys: the distinct labels, ascending. *)
Definition group_keys (labels : list Z) : list Z :=
  merge_sort Z.le (remove_dups labels).

(** Lines 128-131: the ids of the groups that fail [_frame_analysis]. *)
Definition discard_ids (labels frame : list Z) (n_frames : Z) : list Z :=
  let true_cluster :=
    map (λ c, (c, _frame_analysis (group_frames labels frame c) n_frames))
        (group_keys labels) in
  (filter (λ p : Z * Z, p.2 = 0) true_cluster).*1.

(** [frame_analysis(labels, frame)], lines 123-135.
    [pd.Series(frame, index=labels)] raises when the lengths differ and
    [frame.max()] when there is no point; the labels of the discarded
    groups, the group [-1] included, become [-1]. *)
Definition frame_analysis (labels frame : list Z) : result (list Z) :=
  if decide (length frame ≠ length labels) then Err ValueError
  else
    n_frames <- np_max frame ;;
    let discard := discard_ids labels frame n_frames in
    Ok (map (λ l, if decide (l ∈ discard) then -1 else l) labels).

(** [_cluster(X, radius, min_locs, frame)]. The KDTree of scipy is the
    argument [query_ball_tree]; [frame] is [None] when frame analysis is
    switched off. *)
Definition _cluster {Points Radius : Type}
    (query_ball_tree : Points → Radius → list (list nat))
    (X : Points) (radius : Radius) (min_locs : Z)
    (frame : option (list Z)) : result (list Z) :=
  let neighbors := query_ball_tree X radius in
  labels <- label_points neighbors min_locs ;;
  match frame with
  | Some f => frame_analysis labels f
  | None => Ok labels
  end.

(** ** Cluster centres ([error_sums_wtd], [cluster_center])

    The columns of the table hold finite numbers, modelled as reals. What
    numpy computes from them is a real or one of the IEEE special values:
    a division by zero gives an infinity or NaN instead of raising.
    Arithmetic is exact (no rounding, no overflow) and every zero is a
    positive zero. *)

Inductive npfloat : Type :=
  | Fin (r : R)
  | Inf (negative : bool)
  | NaN.

Definition fneg (a : npfloat) : npfloat :=
  match a with
  | Fin x => Fin (- x)
  | Inf s => Inf (negb s)
  | NaN => NaN
  end.

Definition fadd (a b : npfloat) : npfloat :=
  match a, b with
  | NaN, _ | _, NaN => NaN
  | Fin x, Fin y => Fin (x + y)
  | Fin _, Inf s | Inf s, Fin _ => Inf s
  | Inf s, Inf t => if Bool.eqb s t then Inf s else NaN
  end.

Definition fsub (a b : npfloat) : npfloat := fadd a (fneg b).

(** The infinity of sign [s], flipped when [x] is negative. *)
Definition signed_inf (s : bool) (x : R) : npfloat :=
  if Rlt_dec x 0 then Inf (negb s) else Inf s.

Definition fmul (a b : npfloat) : npfloat :=
  match a, b with
  | NaN, _ | _, NaN => NaN
  | Fin x, Fin y => Fin (x * y)
  | Fin x, Inf s | Inf s, Fin x =>
      if Req_dec_T x 0 then NaN else signed_inf s x
  | Inf s, Inf t => Inf (xorb s t)
  end.

Definition fdiv (a b : npfloat) : npfloat :=
  match a, b with
  | NaN, _ | _, NaN => NaN
  | Fin x, Fin y =>
      if Req_dec_T y 0 then
        if Req_dec_T x 0 then NaN else signed_inf false x
      else Fin (x / y)
  | Fin _, Inf _ => Fin 0
  | Inf s, Fin y => signed_inf s y
  | Inf _, Inf _ => NaN
  end.

(** [np.sqrt]. *)
Definition fsqrt (a : npfloat) : npfloat :=
  match a with
  | Fin x => if Rlt_dec x 0 then NaN else Fin (sqrt x)
  | Inf false => Inf false
  | Inf true => NaN
  | NaN => NaN
  end.

(** [a ** 2]. *)
Definition fsquare (a : npfloat) : npfloat := fmul a a.

Definition is_nan (a : npfloat) : bool :=
  match a with NaN => true | _ => false end.


(** [a == 0.0]. *)
Definition is_zero (a : npfloat) : bool :=
  match a with
  | Fin x => if Req_dec_T x 0 then true else false
  | _ => false
  end.

(** A column of the table as a float Series. *)
Definition series (col : list R) : list npfloat := map Fin col.

(** [ndarray.sum()]: NaN propagates. *)
Definition np_fsum (a : list npfloat) : npfloat := foldl fadd (Fin 0) a.

(** [Series.sum()]: pandas skips NaN entries ([skipna=True]). *)
Definition pd_sum (s : list npfloat) : npfloat :=
  np_fsum (filter (λ v, is_nan v = false) s).

(** [Series.mean()] of a column of finite values; NaN for no rows. *)
Definition pd_mean (col : list R) : npfloat :=
  match col with
  | [] => NaN
  | _ => fdiv (pd_sum (series col)) (Fin (INR (length col)))
  end.

(** [Series.mean()] of the unsigned integer column [frame]. *)
Definition pd_mean_int (col : list Z) : npfloat :=
  pd_mean (map IZR col).

(** [np.average(a, weights=weights)], which refuses weights that sum to
    zero. *)
Definition np_average (a weights : list npfloat) : result npfloat :=
  let scl := np_fsum weights in
  if is_zero scl then Err ZeroDivisionError
  else Ok (fdiv (np_fsum (zip_with fmul a weights)) scl).

(** [error_sums_wtd(x, w)], line 337, on two Series. *)
Definition error_sums_wtd (x w : list npfloat) : npfloat :=
  let wsum := pd_sum w in
  let center := fdiv (pd_sum (zip_with fmul w x)) wsum in
  let dev2 := map (λ xi, fsquare (fsub xi center)) x in
  fdiv (pd_sum (zip_with fmul w dev2)) wsum.

(** The rows of one group of [locs_pd.groupby(locs_pd.group)], column by
    column; [z] is absent from 2D data. *)
Module GroupLocs.
Record t : Type := mk {
  frame : list Z;
  x : list R;
  y : list R;
  z : option (list R);
  photons : list R;
  sx : list R;
  sy : list R;
  bg : list R;
  lpx : list R;
  lpy : list R;
  net_gradient : list R
}.
End GroupLocs.

(** The tuple that [cluster_center] returns for 3D data, field by field
    in its order, and the 12-tuple that it builds for 2D data. *)
Module Center.
Record t : Type := mk {
  frame : npfloat;
  x : npfloat;
  y : npfloat;
  photons : npfloat;
  sx : npfloat;
  sy : npfloat;
  bg : npfloat;
  lpx : npfloat;
  lpy : npfloat;
  ellipticity : npfloat;
  net_gradient : npfloat;
  n : nat;
  z : npfloat;
  lpz : npfloat
}.
End Center.

Definition tuple12 : Type :=
  npfloat * npfloat * npfloat * npfloat * npfloat * npfloat * npfloat
  * npfloat * npfloat * npfloat * npfloat * nat.

(** [len(grouplocs)]: the number of rows. *)
Definition len (grouplocs : GroupLocs.t) : nat :=
  length (GroupLocs.frame grouplocs).

(** [1 / col ** 2] on a Series. *)
Definition inverse_square (col : list npfloat) : list npfloat :=
  map (λ v, fdiv (Fin 1) (fsquare v)) col.

(** Lines 444-451: the precision of the weighted mean along one axis,
    before [lpx] and [lpy] are averaged. *)
Definition axis_precision (coord lp : list R) (n : nat) : npfloat :=
  fsqrt (fdiv (error_sums_wtd (series coord) (series lp))
              (Fin (IZR (Z.of_nat n - 1)))).

(** [cluster_center(grouplocs)], lines 433-494. On 2D data the tuple is
    bound to [results] and the function then reads [result], a local
    name that only the 3D branch assigns. *)
Definition cluster_center (grouplocs : GroupLocs.t) : result Center.t :=
  let g := grouplocs in
  let frame := pd_mean_int (GroupLocs.frame g) in
  x <- np_average (series (GroupLocs.x g))
         (inverse_square (series (GroupLocs.lpx g))) ;;
  y <- np_average (series (GroupLocs.y g))
         (inverse_square (series (GroupLocs.lpy g))) ;;
  let photons := pd_mean (GroupLocs.photons g) in
  let sx := pd_mean (GroupLocs.sx g) in
  let sy := pd_mean (GroupLocs.sy g) in
  let bg := pd_mean (GroupLocs.bg g) in
  let lpx0 := axis_precision (GroupLocs.x g) (GroupLocs.lpx g) (len g) in
  let lpy0 := axis_precision (GroupLocs.y g) (GroupLocs.lpy g) (len g) in
  let lpx := fdiv (fadd lpx0 lpy0) (Fin 2) in
  let lpy := lpx in
  let ellipticity := fdiv sx sy in
  let net_gradient := pd_mean (GroupLocs.net_gradient g) in
  let n := len g in
  match GroupLocs.z g with
  | Some zcol =>
      z <- np_average (series zcol)
             (inverse_square
                (map (λ v, fmul v (Fin 2)) (series (GroupLocs.lpx g)))) ;;
      let lpz := fmul (Fin 2) lpx in
      Ok (Center.mk frame x y photons sx sy bg lpx lpy ellipticity
            net_gradient n z lpz)
  | None =>
      let results : tuple12 :=
        (frame, x, y, photons, sx, sy, bg, lpx, lpy, ellipticity,
         net_gradient, n) in
      Err UnboundLocalError
  end.

(** ** The entry points ([cluster_2D], [cluster_3D], [cluster])

    Coordinates and radii are floats, modelled as in the previous
    section; the KDTree stays an argument. *)

(** [np.stack(arrays).T] on one-dimensional arrays: they must have the
    same length, and row [i] of the result holds their entries at [i]. *)
Definition np_stack_T {A : Type} (arrays : list (list A))
    : result (list (list A)) :=
  match arrays with
  | [] => Err ValueError
  | a :: rest =>
      if decide (Forall (λ b, length b = length a) rest)
      then Ok (map (λ i, omap (λ b, b !! i) arrays) (seq 0 (length a)))
      else Err ValueError
  end.

(** [cluster_2D(x, y, frame, radius, min_locs, fa)]. *)
Definition cluster_2D
    (query_ball_tree : list (list npfloat) → npfloat → list (list nat))
    (x y : list npfloat) (frame : list Z) (radius : npfloat)
    (min_locs : Z) (fa : bool) : result (list Z) :=
  X <- np_stack_T [x; y] ;;
  let frame := if negb fa then None else Some frame in
  _cluster query_ball_tree X radius min_locs frame.

(** [cluster_3D(x, y, z, frame, radius_xy, radius_z, min_locs, fa)]. *)
Definition cluster_3D
    (query_ball_tree : list (list npfloat) → npfloat → list (list nat))
    (x y z : list npfloat) (frame : list Z) (radius_xy radius_z : npfloat)
    (min_locs : Z) (fa : bool) : result (list Z) :=
  let radius := radius_xy in
  X <- np_stack_T [x; y; map (λ v, fdiv (fmul v radius_xy) radius_z) z] ;;
  let frame := if negb fa then None else Some frame in
  _cluster query_ball_tree X radius min_locs frame.

(** The parameter tuple of [cluster]: five entries for 2D data and six
    for 3D data. The entries that [cluster] binds to [_] are left out. *)
Inductive params : Type :=
  | Params5 (radius : npfloat) (min_locs : Z) (fa : bool)
  | Params6 (radius_xy radius_z : npfloat) (min_locs : Z) (fa : bool).

(** [cluster(locs, params)]: [locs] has the attribute [z] or not, and
    unpacking a tuple of the other length raises. *)
Definition cluster
    (query_ball_tree : list (list npfloat) → npfloat → list (list nat))
    (locs : GroupLocs.t) (p : params) : result (list Z) :=
  match GroupLocs.z locs with
  | Some zcol =>
      match p with
      | Params6 radius_xy radius_z min_locs fa =>
          cluster_3D query_ball_tree
            (series (GroupLocs.x locs)) (series (GroupLocs.y locs))
            (series zcol) (GroupLocs.frame locs)
            radius_xy radius_z min_locs fa
      | Params5 _ _ _ => Err ValueError
      end
  | None =>
      match p with
      | Params5 radius min_locs fa =>
          cluster_2D query_ball_tree
            (series (GroupLocs.x locs)) (series (GroupLocs.y locs))
            (GroupLocs.frame locs) radius min_locs fa
      | Params6 _ _ _ _ => Err ValueError
      end
  end.

(** ** The centres of all clusters ([save_cluster_centers], lines 352-356) *)




(** * Properties and inputs *)

(** ** Neighbour lists and labels *)

(** What the radius query guarantees: every list holds valid point
    indices and contains the point it belongs to. *)
Definition wf_neighbors (neighbors : list (list nat)) : Prop :=
  Forall (λ p : nat * list nat,
            p.1 ∈ p.2 ∧ Forall (λ j, j < length neighbors)%nat p.2)
         (imap pair neighbors).

#[global] Instance wf_neighbors_dec neighbors : Decision (wf_neighbors neighbors).
Proof. unfold wf_neighbors. apply _. Defined.

(** Being within the radius is symmetric. *)
Definition symmetric_neighbors (neighbors : list (list nat)) : Prop :=
  Forall (λ p : nat * list nat,
            Forall (λ j, p.1 ∈ neighbors !!! j) p.2)
         (imap pair neighbors).

#[global] Instance symmetric_neighbors_dec neighbors :
  Decision (symmetric_neighbors neighbors).
Proof. unfold symmetric_neighbors. apply _. Defined.

(** [n] is the maximum of the neighbour counts over [idx]. *)
Definition max_count_over (neighbors : list (list nat)) (idx : list nat)
    (n : nat) : Prop :=
  (∃ j nb, j ∈ idx ∧ neighbors !! j = Some nb ∧ length nb = n) ∧
  (∀ j nb, j ∈ idx → neighbors !! j = Some nb → (length nb ≤ n)%nat).

(** A label set that is contiguous from zero: [{0, ..., k-1}] for some [k]. *)
Definition contiguous_from_zero (labels : list Z) : Prop :=
  ∃ k, ∀ c, 0 ≤ c → (c ∈ labels ↔ c < k).

(** The number of points that carry the label [c]. *)
Definition cluster_size (labels : list Z) (c : Z) : nat :=
  length (filter (λ v, v = c) labels).

(** The local maxima of an input, by ascending index ([lm_idx]). *)
Definition maxima_of (neighbors : list (list nat)) (min_locs : Z) : list nat :=
  match local_maxima neighbors min_locs with
  | Ok lm => np_where_eq 1 lm
  | Err _ => []
  end.

(** Local maxima whose neighbourhoods share a point are neighbours of each
    other. *)
Definition overlapping_maxima_adjacent (neighbors : list (list nat))
    (lm_idx : list nat) : Prop :=
  Forall (λ i, Forall (λ i',
      Exists (λ s, s ∈ neighbors !!! i') (neighbors !!! i) →
      i ∈ neighbors !!! i') lm_idx) lm_idx.

#[global] Instance overlapping_maxima_adjacent_dec neighbors lm_idx :
  Decision (overlapping_maxima_adjacent neighbors lm_idx).
Proof. unfold overlapping_maxima_adjacent. apply _. Defined.

(** The state of the labels once the local maxima of [pre] are done:
    the labelled points are the neighbours of those maxima, and every
    cluster holds the whole neighbourhood of the maximum that started it. *)
Definition clusters_cover (neighbors : list (list nat))
    (pre : list (Z * nat)) (s : list Z) : Prop :=
  length s = length neighbors ∧
  (∀ k v, s !! k = Some v → v ≠ -1 →
     ∃ c i idx, (c, i) ∈ pre ∧ neighbors !! i = Some idx ∧ k ∈ idx) ∧
  (∀ c i idx k, (c, i) ∈ pre → neighbors !! i = Some idx → k ∈ idx →
     ∃ v, s !! k = Some v ∧ v ≠ -1) ∧
  (∀ k v, s !! k = Some v → v ≠ -1 →
     ∃ i idx, (v, i) ∈ pre ∧ neighbors !! i = Some idx ∧
       ∀ k', k' ∈ idx → s !! k' = Some v).

(** The state of the labels once the local maxima of [pre] are done, on
    any input: their neighbours are labelled, and every label in use is
    the enumeration index of a local maximum of [pre] that carries it. *)
Definition clusters_started (neighbors : list (list nat))
    (pre : list (Z * nat)) (s : list Z) : Prop :=
  length s = length neighbors ∧
  (∀ c i idx k, (c, i) ∈ pre → neighbors !! i = Some idx → k ∈ idx →
     ∃ v, s !! k = Some v ∧ v ≠ -1) ∧
  (∀ k v, s !! k = Some v → v ≠ -1 → ∃ i, (v, i) ∈ pre ∧ s !! i = Some v).

(** The state of the labels once the local maxima of [pre] are done, on
    any input: the labelled points are exactly the neighbours of those
    maxima. *)
Definition labelled_near_maxima (neighbors : list (list nat))
    (pre : list (Z * nat)) (s : list Z) : Prop :=
  length s = length neighbors ∧
  (∀ c i idx k, (c, i) ∈ pre → neighbors !! i = Some idx → k ∈ idx →
     ∃ v, s !! k = Some v ∧ v ≠ -1) ∧
  (∀ k v, s !! k = Some v → v ≠ -1 →
     ∃ c i idx, (c, i) ∈ pre ∧ neighbors !! i = Some idx ∧ k ∈ idx).

(** ** Tables and real sums *)

(** An inverse-square weight is a positive real or plus infinity. *)
Definition positive_weight (w : npfloat) : Prop :=
  match w with
  | Fin x => (0 < x)%R
  | Inf s => s = false
  | NaN => False
  end.

(** A table of [k] rows: every column has [k] entries. *)
Definition rows (g : GroupLocs.t) (k : nat) : Prop :=
  length (GroupLocs.frame g) = k ∧ length (GroupLocs.x g) = k ∧
  length (GroupLocs.y g) = k ∧
  (∀ zcol, GroupLocs.z g = Some zcol → length zcol = k) ∧
  length (GroupLocs.photons g) = k ∧ length (GroupLocs.sx g) = k ∧
  length (GroupLocs.sy g) = k ∧ length (GroupLocs.bg g) = k ∧
  length (GroupLocs.lpx g) = k ∧ length (GroupLocs.lpy g) = k ∧
  length (GroupLocs.net_gradient g) = k.

(** Sum of a column, in the order in which it is accumulated. *)
Definition Rsum (l : list R) : R := foldl Rplus 0%R l.

(** The weighted mean of [x] under the weights [w], and the weighted
    mean squared deviation from it. *)
Definition weighted_mean (x w : list R) : R :=
  (Rsum (zip_with Rmult w x) / Rsum w)%R.

Definition weighted_variance (x w : list R) : R :=
  (Rsum (zip_with Rmult w
           (map (λ xi, ((xi - weighted_mean x w) * (xi - weighted_mean x w))%R)
                x))
   / Rsum w)%R.




(** The radius with which [cluster] has the tree queried. *)
Definition params_radius (p : params) : npfloat :=
  match p with
  | Params5 radius _ _ => radius
  | Params6 radius_xy _ _ _ => radius_xy
  end.

(** ** The formulas of the specification *)

(** The precision that the specification words: the weights are the
    inverse squared precisions [1 / lp_i ** 2], as for the centre. *)
Definition spec_axis_precision (coord lp : list R) (n : nat) : npfloat :=
  fsqrt (fdiv (error_sums_wtd (series coord) (inverse_square (series lp)))
              (Fin (IZR (Z.of_nat n - 1)))).

(** The burst test as the specification words it: 21 equal-width bins
    over the whole acquisition, from frame 0 to [n_frames]. *)
Definition spec_burst_rejects (frame : list Z) (n_frames : Z) : bool :=
  let locs_binned := histogram_in 0 (inject_Z n_frames) 21 frame in
  burst_rejects (foldr Nat.max 0%nat locs_binned) (length frame).

(** ** Concrete inputs

    Points on a line, radius 10 (squared radius 100). *)

(** Two local maxima 0 and 2, twelve apart, that share the neighbour 1. *)
Definition shared_neighbor_points : list (Z * Z) :=
  line [0; 5; 12; -8; -9; 20; 21].

(** Two local maxima 0 and 1 whose other neighbours 2 and 3 are shared. *)
Definition crowded_points : list (Z * Z) := line [0; 12; 5; 6; -8; 20].

(** Two pairs of points far from each other. *)
Definition two_pairs : list (Z * Z) := line [0; 1; 100; 101].

(** A cluster of 21 localizations in the 21 consecutive frames 500..520
    of an acquisition of 1000 frames, and two unclustered points. *)
Definition burst_frames : list Z := map Z.of_nat (seq 500 21).
Definition burst_labels : list Z := replicate 21 0 ++ [-1; -1].
Definition burst_input_frames : list Z := burst_frames ++ [0; 1000].

(** A cluster whose mean frame, 200, is exactly [0.2 * n_frames]. *)
Definition boundary_labels : list Z := [0; 0; 0; -1].
Definition boundary_frames : list Z := [100; 200; 300; 1000].

(** A 3D cluster of two members with the precisions 1 and 2. *)
Definition two_members : GroupLocs.t :=
  GroupLocs.mk [10; 20] [0; 2]%R [0; 2]%R (Some [0; 0]%R)
    [100; 100]%R [1; 1]%R [1; 1]%R [5; 5]%R [1; 2]%R [1; 2]%R [3; 3]%R.



(** A radius query on points that all lie within the radius of each
    other: every point has every point as its neighbour. *)
Definition all_within_radius (X : list (list npfloat)) (radius : npfloat)
    : list (list nat) :=
  map (λ _, seq 0 (length X)) X.

(** A 3D table of three localizations: a cluster of two around an
    unclustered one. *)
Definition three_locs : GroupLocs.t :=
  GroupLocs.mk [10; 50; 20] [0; 7; 2]%R [0; 7; 2]%R (Some [0; 7; 4]%R)
    [100; 100; 100]%R [1; 1; 1]%R [1; 1; 1]%R [5; 5; 5]%R
    [1; 1; 2]%R [1; 1; 2]%R [3; 3; 3]%R.



(** * Verification *)

(** ** Generic facts about the error monad and loops *)

Lemma bind_Ok {A B : Type} (m : result A) (k : A → result B) (b : B) :
  (x <- m ;; k x) = Ok b ↔ ∃ a, m = Ok a ∧ k a = Ok b.
Proof.
  destruct m as [a|e]; simpl; split.
  - eauto.
  - by intros (a' & [= <-] & ?).
  - discriminate.
  - by intros (a' & ? & ?).
Qed.

Lemma getitem_Ok {A : Type} (a : list A) (i : nat) (v : A) :
  getitem a i = Ok v ↔ a !! i = Some v.
Proof. unfold getitem. destruct (a !! i); split; congruence. Qed.

Lemma getitem_lt {A : Type} (a : list A) (i : nat) :
  (i < length a)%nat → ∃ v, getitem a i = Ok v ∧ a !! i = Some v.
Proof.
  intros Hi. destruct (lookup_lt_is_Some_2 a i Hi) as [v Hv].
  exists v. by rewrite getitem_Ok.
Qed.

Lemma setitem_Ok {A : Type} (a a' : list A) (i : nat) (v : A) :
  setitem a i v = Ok a' ↔ (i < length a)%nat ∧ a' = <[i:=v]> a.
Proof.
  unfold setitem. case_decide; split.
  - by intros [= <-].
  - by intros [_ ->].
  - discriminate.
  - intros [? _]. lia.
Qed.

Lemma setitem_lt {A : Type} (a : list A) (i : nat) (v : A) :
  (i < length a)%nat → setitem a i v = Ok (<[i:=v]> a).
Proof. intros. by apply setitem_Ok. Qed.

(** A loop invariant that every iteration preserves holds at the end, and
    the loop does not raise when no iteration does. *)
Lemma for_each_invariant {S B : Type} (body : S → B → result S)
    (I : S → Prop) (xs : list B) (st : S) :
  I st →
  (∀ s x, x ∈ xs → I s → ∃ s', body s x = Ok s' ∧ I s') →
  ∃ st', for_each body xs st = Ok st' ∧ I st'.
Proof.
  revert st. induction xs as [|x xs IH]; intros st Hst Hbody; simpl.
  - eauto.
  - destruct (Hbody st x) as (s' & -> & Hs'); [left | done |]. simpl.
    apply IH; [done|]. intros s y Hy. apply Hbody. by right.
Qed.

Lemma py_max_Ok (l : list nat) (m : nat) :
  py_max l = Ok m → m ∈ l ∧ ∀ x, x ∈ l → (x ≤ m)%nat.
Proof.
  destruct l as [|x l]; simpl; [discriminate|]. intros [= <-].
  revert x. induction l as [|y l IH]; intros x; simpl.
  - split; [left|]. intros z ->%list_elem_of_singleton. lia.
  - destruct (IH (x `max` y)%nat) as [Hin Hle]. split.
    + apply elem_of_cons in Hin as [Heq|Hin].
      * rewrite Heq. destruct (Nat.max_spec x y) as [[_ ->]|[_ ->]].
        -- right; left.
        -- left.
      * right; by right.
    + intros z [->|[->|Hz]%elem_of_cons]%elem_of_cons.
      * specialize (Hle (x `max` y)%nat (ltac:(left))). lia.
      * specialize (Hle (x `max` y)%nat (ltac:(left))). lia.
      * apply Hle. by right.
Qed.

Lemma py_max_nonempty (l : list nat) : l ≠ [] → ∃ m, py_max l = Ok m.
Proof. destruct l; [done|]. simpl. eauto. Qed.

Lemma comprehension_Ok {A B : Type} (f : A → result B) (xs : list A)
    (ys : list B) :
  comprehension f xs = Ok ys ↔ Forall2 (λ x y, f x = Ok y) xs ys.
Proof.
  revert ys. induction xs as [|x xs IH]; intros ys; simpl.
  - split; [intros [= <-]; constructor | by intros ->%Forall2_nil_inv_l].
  - rewrite bind_Ok. split.
    + intros (y & Hy & (ys' & Hys & [= <-])%bind_Ok).
      constructor; [done | by apply IH].
    + intros (y & ys' & Hy & Hys & ->)%Forall2_cons_inv_l.
      exists y. split; [done|]. apply bind_Ok. exists ys'. split; [by apply IH | done].
Qed.

Lemma comprehension_total {A B : Type} (f : A → result B) (xs : list A) :
  (∀ x, x ∈ xs → ∃ y, f x = Ok y) → ∃ ys, comprehension f xs = Ok ys.
Proof.
  induction xs as [|x xs IH]; intros Hf; simpl; [eauto|].
  destruct (Hf x) as [y ->]; [left|]. simpl.
  destruct IH as [ys ->]; [intros; apply Hf; by right|]. simpl. eauto.
Qed.

Lemma wf_neighbors_lookup (neighbors : list (list nat)) (i : nat)
    (idx : list nat) :
  wf_neighbors neighbors → neighbors !! i = Some idx →
  i ∈ idx ∧ ∀ j, j ∈ idx → (j < length neighbors)%nat.
Proof.
  intros Hwf Hi. unfold wf_neighbors in Hwf. rewrite Forall_lookup in Hwf.
  destruct (Hwf i (i, idx)) as [Hself Hrange].
  { by rewrite list_lookup_imap, Hi. }
  split; [done|]. intros j Hj. simpl in Hrange.
  rewrite Forall_forall in Hrange. by apply Hrange.
Qed.

Section LocalMaxima.
Variable neighbors : list (list nat).
Variable min_locs : Z.
Hypothesis Hwf : wf_neighbors neighbors.

Lemma neighbor_count_Ok (j n : nat) :
  neighbor_count neighbors j = Ok n ↔
  ∃ nb, neighbors !! j = Some nb ∧ length nb = n.
Proof.
  unfold neighbor_count. rewrite bind_Ok. split.
  - intros (nb & Hnb%getitem_Ok & [= <-]). eauto.
  - intros (nb & Hnb & <-). exists nb. by rewrite getitem_Ok.
Qed.

Lemma counts_max (idx : list nat) (counts : list nat) (m : nat) :
  comprehension (neighbor_count neighbors) idx = Ok counts →
  py_max counts = Ok m →
  max_count_over neighbors idx m.
Proof.
  intros Hc%comprehension_Ok [Hin Hle]%py_max_Ok. split.
  - apply list_elem_of_lookup in Hin as [k Hk].
    destruct (Forall2_lookup_r _ _ _ _ _ Hc Hk) as (j & Hj & Hjm).
    apply neighbor_count_Ok in Hjm as (nb & Hnb & Hlen).
    exists j, nb. split_and!; [|done..].
    apply list_elem_of_lookup. eauto.
  - intros j nb [k Hk]%list_elem_of_lookup Hnb.
    destruct (Forall2_lookup_l _ _ _ _ _ Hc Hk) as (c & Hc' & Hjc).
    apply neighbor_count_Ok in Hjc as (nb' & Hnb' & Hlen).
    assert (nb' = nb) as -> by congruence.
    rewrite Hlen. apply Hle, list_elem_of_lookup. eauto.
Qed.

Lemma max_count_over_unique (idx : list nat) (n m : nat) :
  max_count_over neighbors idx n → max_count_over neighbors idx m → n = m.
Proof.
  intros [(j & nb & Hj & Hnb & <-) Hle] [(j' & nb' & Hj' & Hnb' & <-) Hle'].
  specialize (Hle j' nb' Hj' Hnb'). specialize (Hle' j nb Hj Hnb). lia.
Qed.

(** The test of one point never raises on well-formed neighbour lists
    and decides the local-maximum condition. *)
Lemma is_local_maximum_spec (i : nat) (idx : list nat) :
  neighbors !! i = Some idx →
  ∃ b, is_local_maximum neighbors min_locs i = Ok b ∧
       (b = true ↔
        Z.of_nat (length idx) > min_locs ∧
        max_count_over neighbors idx (length idx)).
Proof.
  intros Hi. unfold is_local_maximum.
  rewrite (proj2 (getitem_Ok _ _ _) Hi). simpl.
  destruct (wf_neighbors_lookup _ i idx Hwf Hi) as [Hself Hrange].
  case_decide as Hn.
  - destruct (comprehension_total (neighbor_count neighbors) idx)
      as [counts Hcounts].
    { intros j Hj. destruct (getitem_lt neighbors j (Hrange j Hj))
        as (nb & _ & Hnb).
      exists (length nb). apply neighbor_count_Ok. eauto. }
    rewrite Hcounts. simpl.
    destruct (py_max_nonempty counts) as [m Hm].
    { apply comprehension_Ok, Forall2_length in Hcounts.
      intros ->. destruct idx; [by apply elem_of_nil in Hself | done]. }
    rewrite Hm. simpl. eexists. split; [done|].
    pose proof (counts_max idx counts m Hcounts Hm) as Hmax.
    rewrite bool_decide_eq_true. split.
    + intros Heq. split; [done | by rewrite Heq].
    + intros [_ Hmax']. by eapply max_count_over_unique.
  - exists false. split; [done|]. split; [done|]. intros [? _]. lia.
Qed.

(** The marking loop over [range(k, k + n)]. *)
Lemma mark_loop (n k : nat) (lm : list Z) :
  length lm = length neighbors →
  (k + n ≤ length neighbors)%nat →
  ∃ lm', for_each (mark_local_maximum neighbors min_locs) (seq k n) lm
           = Ok lm' ∧
    length lm' = length neighbors ∧
    ∀ i, lm' !! i =
      if decide (k ≤ i < k + n)%nat then
        match is_local_maximum neighbors min_locs i with
        | Ok true => Some 1
        | _ => lm !! i
        end
      else lm !! i.
Proof.
  revert k lm. induction n as [|n IH]; intros k lm Hlen Hk; simpl.
  - exists lm. split_and!; [done..|]. intros i. case_decide; [lia | done].
  - destruct (getitem_lt neighbors k) as (idx & _ & Hidx); [lia|].
    destruct (is_local_maximum_spec k idx Hidx) as (b & Hb & _).
    unfold mark_local_maximum at 1. rewrite Hb. simpl.
    set (lm1 := if b then <[k:=1]> lm else lm).
    assert (Hstep : (if b then setitem lm k 1 else Ok lm) = Ok lm1).
    { subst lm1. destruct b; [|done]. apply setitem_lt. lia. }
    rewrite Hstep. simpl.
    destruct (IH (S k) lm1) as (lm' & Hrun & Hlen' & Hlm').
    { subst lm1. destruct b; [by rewrite length_insert | done]. }
    { lia. }
    exists lm'. split_and!; [done..|]. intros i. rewrite Hlm'.
    destruct (decide (i = k)) as [-> | Hne].
    + rewrite decide_False by lia. rewrite decide_True by lia.
      rewrite Hb. subst lm1. destruct b; [|done].
      apply list_lookup_insert_eq. lia.
    + assert (lm1 !! i = lm !! i) as Hother.
      { subst lm1. destruct b; [by apply list_lookup_insert_ne | done]. }
      repeat case_decide; try lia; by rewrite ?Hother.
Qed.
End LocalMaxima.

(** The array [lm] after the marking loop. *)
Lemma local_maxima_marks (neighbors : list (list nat)) (min_locs : Z) :
  wf_neighbors neighbors →
  ∃ lm, local_maxima neighbors min_locs = Ok lm ∧
    length lm = length neighbors ∧
    ∀ i, (i < length neighbors)%nat →
      lm !! i = Some (match is_local_maximum neighbors min_locs i with
                      | Ok true => 1
                      | _ => 0
                      end).
Proof.
  intros Hwf. unfold local_maxima.
  destruct (mark_loop neighbors min_locs Hwf (length neighbors) 0
              (replicate (length neighbors) 0))
    as (lm & Hrun & Hlen & Hlm); [by rewrite length_replicate | lia |].
  exists lm. split_and!; [done..|]. intros i Hi.
  rewrite Hlm, decide_True by lia.
  rewrite lookup_replicate_2 by done.
  by destruct (is_local_maximum neighbors min_locs i) as [[]|].
Qed.

(** C10: on the neighbour lists of a radius query, [lm[i] = 1] exactly for
    the points [i] whose self-inclusive neighbour count exceeds
    [min_locs] and equals the maximum of the neighbour counts over the
    neighbours of [i]; nothing else enters the test, so every point tied
    for the maximum is marked. *)
Theorem local_maximum_iff (neighbors : list (list nat)) (min_locs : Z) :
  wf_neighbors neighbors →
  ∃ lm, local_maxima neighbors min_locs = Ok lm ∧
    length lm = length neighbors ∧
    ∀ i idx, neighbors !! i = Some idx →
      (lm !! i = Some 1 ∨ lm !! i = Some 0) ∧
      (lm !! i = Some 1 ↔
       Z.of_nat (length idx) > min_locs ∧
       max_count_over neighbors idx (length idx)).
Proof.
  intros Hwf.
  destruct (local_maxima_marks neighbors min_locs Hwf) as (lm & Hlm & Hlen & Hmark).
  exists lm. split_and!; [done..|]. intros i idx Hi.
  rewrite (Hmark i (lookup_lt_Some _ _ _ Hi)).
  destruct (is_local_maximum_spec neighbors min_locs Hwf i idx Hi)
    as (b & -> & Hspec).
  destruct b; split.
  - by left.
  - split; [intros _; by apply Hspec | done].
  - by right.
  - split; [done|]. intros H. by apply Hspec in H.
Qed.

(** A marked point has more than [min_locs] neighbours. *)
Lemma local_maximum_count (neighbors : list (list nat)) (min_locs : Z)
    (lm : list Z) (i : nat) (idx : list nat) :
  wf_neighbors neighbors →
  local_maxima neighbors min_locs = Ok lm →
  lm !! i = Some 1 → neighbors !! i = Some idx →
  Z.of_nat (length idx) > min_locs.
Proof.
  intros Hwf Hlm Hi Hidx.
  destruct (local_maxima_marks neighbors min_locs Hwf) as (lm' & Hlm' & _ & Hmark).
  assert (lm' = lm) as -> by congruence.
  rewrite (Hmark i (lookup_lt_Some _ _ _ Hidx)) in Hi.
  destruct (is_local_maximum_spec neighbors min_locs Hwf i idx Hidx)
    as (b & Hb & Hspec).
  rewrite Hb in Hi. destruct b; [|done]. by apply Hspec.
Qed.

(** ** Label propagation *)

Lemma where_from_elem (start : nat) (v : Z) (a : list Z) (i : nat) :
  i ∈ where_from start v a ↔ (start ≤ i)%nat ∧ a !! (i - start)%nat = Some v.
Proof.
  revert start. induction a as [|x a IH]; intros start; simpl.
  - rewrite elem_of_nil. split; [done|]. intros [_ Hi]. by rewrite lookup_nil in Hi.
  - case_decide as Hx; rewrite ?elem_of_cons, IH.
    + split.
      * intros [->|[Hle Hi]].
        -- rewrite Nat.sub_diag. simpl. split; [lia | by subst].
        -- split; [lia|]. by replace (i - start)%nat with (S (i - S start)) by lia.
      * intros [Hle Hi]. destruct (decide (i = start)) as [|Hne]; [by left|].
        right. split; [lia|].
        by replace (i - start)%nat with (S (i - S start)) in Hi by lia.
    + split.
      * intros [Hle Hi]. split; [lia|].
        by replace (i - start)%nat with (S (i - S start)) by lia.
      * intros [Hle Hi]. destruct (decide (i = start)) as [-> | Hne].
        { rewrite Nat.sub_diag in Hi. simpl in Hi. congruence. }
        split; [lia|].
        by replace (i - start)%nat with (S (i - S start)) in Hi by lia.
Qed.

Lemma np_where_eq_elem (v : Z) (a : list Z) (i : nat) :
  i ∈ np_where_eq v a ↔ a !! i = Some v.
Proof.
  unfold np_where_eq. rewrite where_from_elem, Nat.sub_0_r.
  split; [by intros [_ ?] | split; [lia | done]].
Qed.

Lemma enumerate_lookup {A : Type} (xs : list A) (k : nat) (c : Z) (x : A) :
  enumerate xs !! k = Some (c, x) ↔ c = Z.of_nat k ∧ xs !! k = Some x.
Proof.
  unfold enumerate. rewrite list_lookup_imap.
  destruct (xs !! k) as [y|]; simpl; split.
  - by intros [= <- <-].
  - by intros [-> [= ->]].
  - discriminate.
  - by intros [_ ?].
Qed.

Lemma enumerate_elem {A : Type} (xs : list A) (c : Z) (x : A) :
  (c, x) ∈ enumerate xs → 0 ≤ c < Z.of_nat (length xs) ∧ x ∈ xs.
Proof.
  intros Hin. apply list_elem_of_lookup in Hin as [k Hk].
  apply enumerate_lookup in Hk as [-> Hk].
  pose proof (lookup_lt_Some _ _ _ Hk). split; [lia|].
  apply list_elem_of_lookup. eauto.
Qed.

(** What one visit does, case by case. *)
Lemma visit_spec (count : Z) (i : nat) (labels : list Z) (j : nat)
    (labels' : list Z) :
  visit count i labels j = Ok labels' →
  ∃ li, labels !! i = Some li ∧ (j < length labels)%nat ∧
    if decide (li = -1) then
      labels' = <[j:=count]>
                  (if decide (j = 0%nat) then <[i:=count]> labels else labels)
    else
      ∃ lj, labels !! j = Some lj ∧
        labels' = if decide (lj = -1) then <[j:=li]> labels else labels.
Proof.
  unfold visit. intros (li & Hli%getitem_Ok & Hrest)%bind_Ok.
  exists li. split; [done|]. case_decide as Hl.
  - apply bind_Ok in Hrest as (labels1 & H1 & H2).
    apply setitem_Ok in H2 as [Hj ->]. case_decide as Hj0.
    + apply setitem_Ok in H1 as [_ ->].
      rewrite length_insert in Hj. done.
    + injection H1 as <-. done.
  - apply bind_Ok in Hrest as (lj & Hlj%getitem_Ok & H2).
    pose proof (lookup_lt_Some _ _ _ Hlj) as Hj. split; [done|].
    exists lj. split; [done|]. case_decide.
    + by apply setitem_Ok in H2 as [_ ->].
    + by injection H2 as <-.
Qed.

Lemma visit_total (count : Z) (i : nat) (labels : list Z) (j : nat) :
  (i < length labels)%nat → (j < length labels)%nat →
  ∃ labels', visit count i labels j = Ok labels'.
Proof.
  intros Hi Hj. unfold visit.
  destruct (getitem_lt labels i Hi) as (li & -> & _). simpl.
  case_decide.
  - case_decide.
    + rewrite setitem_lt by done. simpl.
      rewrite setitem_lt by (by rewrite length_insert). eauto.
    + simpl. rewrite setitem_lt by done. eauto.
  - destruct (getitem_lt labels j Hj) as (lj & -> & _). simpl.
    case_decide; [rewrite setitem_lt by done|]; eauto.
Qed.

Lemma visit_length (count : Z) (i : nat) (labels : list Z) (j : nat)
    (labels' : list Z) :
  visit count i labels j = Ok labels' → length labels' = length labels.
Proof.
  intros Hv. apply visit_spec in Hv as (li & _ & _ & H). case_decide.
  - subst. rewrite length_insert. case_decide; by rewrite ?length_insert.
  - destruct H as (lj & _ & ->). case_decide; by rewrite ?length_insert.
Qed.

(** Every label after a visit is the current count or was there before. *)
Lemma visit_values (count : Z) (i : nat) (labels : list Z) (j : nat)
    (labels' : list Z) (v : Z) :
  visit count i labels j = Ok labels' → v ∈ labels' → v = count ∨ v ∈ labels.
Proof.
  intros Hv Hin. apply visit_spec in Hv as (li & Hli & Hj & H).
  apply list_elem_of_lookup in Hin as [k Hk].
  assert (Hins : ∀ (l : list Z) p w, <[p:=w]> l !! k = Some v →
                   v = w ∨ l !! k = Some v).
  { intros l p w Hl. destruct (decide (p = k)) as [-> | Hne].
    - destruct (decide (k < length l)%nat).
      + rewrite list_lookup_insert_eq in Hl by done. left. congruence.
      + rewrite list_insert_ge in Hl by lia. by right.
    - rewrite list_lookup_insert_ne in Hl by done. by right. }
  case_decide.
  - subst labels'. apply Hins in Hk as [?|Hk]; [by left|].
    case_decide.
    + apply Hins in Hk as [?|Hk]; [by left|]. right.
      apply list_elem_of_lookup; eauto.
    + right. apply list_elem_of_lookup; eauto.
  - destruct H as (lj & Hlj & ->). right. case_decide.
    + apply Hins in Hk as [->|Hk]; apply list_elem_of_lookup; eauto.
    + apply list_elem_of_lookup; eauto.
Qed.

(** C3 (as the code has it): a neighbour [j] that already carries a label
    is left unchanged by a visit exactly when the local maximum [i] being
    processed carries a label at that moment, and then the whole array is
    unchanged; while [labels[i]] is still [-1] the visited neighbour
    receives the current count whatever label it had. *)
Theorem visit_labelled_neighbor (count : Z) (i : nat) (labels : list Z)
    (j : nat) (lj : Z) (labels' : list Z) :
  labels !! j = Some lj → lj ≠ -1 →
  visit count i labels j = Ok labels' →
  ∃ li, labels !! i = Some li ∧
    if decide (li = -1) then labels' !! j = Some count
    else labels' = labels.
Proof.
  intros Hlj Hne Hv. apply visit_spec in Hv as (li & Hli & Hj & H).
  exists li. split; [done|]. case_decide.
  - subst labels'. apply list_lookup_insert_eq.
    case_decide; by rewrite ?length_insert.
  - destruct H as (lj' & Hlj' & ->).
    assert (lj' = lj) as -> by congruence. by rewrite decide_False.
Qed.

Section Propagation.
Variable neighbors : list (list nat).
Hypothesis Hwf : wf_neighbors neighbors.

Lemma process_local_maximum_total (labels : list Z) (count : Z) (i : nat) :
  length labels = length neighbors → (i < length neighbors)%nat →
  ∃ labels', process_local_maximum neighbors labels (count, i) = Ok labels' ∧
    length labels' = length neighbors ∧
    ∀ v, v ∈ labels' → v = count ∨ v ∈ labels.
Proof.
  intros Hlen Hi. unfold process_local_maximum.
  destruct (getitem_lt neighbors i Hi) as (nb & -> & Hnb). simpl.
  destruct (wf_neighbors_lookup _ _ _ Hwf Hnb) as [_ Hrange].
  destruct (for_each_invariant (visit count i)
              (λ s, length s = length neighbors ∧
                    ∀ v, v ∈ s → v = count ∨ v ∈ labels) nb labels)
    as (labels' & Hrun & Hlen' & Hvals).
  - split; [done|]. intros v Hv. by right.
  - intros s j Hj [Hs Hv].
    destruct (visit_total count i s j) as [s' Hs'].
    { lia. } { rewrite Hs. by apply Hrange. }
    exists s'. split; [done|]. split.
    + by rewrite (visit_length _ _ _ _ _ Hs').
    + intros v Hin.
      destruct (visit_values _ _ _ _ _ _ Hs' Hin) as [?|?]; [by left | by apply Hv].
  - eauto.
Qed.

(** Propagation never raises, keeps the length, and writes only
    enumeration indices of local maxima. *)
Lemma propagate_labels_total (lm : list Z) :
  length lm = length neighbors →
  ∃ out, propagate_labels neighbors lm = Ok out ∧
    length out = length neighbors ∧
    ∀ c, c ∈ out →
      c = -1 ∨ 0 ≤ c < Z.of_nat (length (np_where_eq 1 lm)).
Proof.
  intros Hlen. unfold propagate_labels.
  set (K := Z.of_nat (length (np_where_eq 1 lm))).
  apply (for_each_invariant (process_local_maximum neighbors)
           (λ s, length s = length neighbors ∧
                 ∀ c, c ∈ s → c = -1 ∨ 0 ≤ c < K)).
  - split; [by rewrite length_replicate|].
    intros c Hc%elem_of_replicate. left. by destruct Hc.
  - intros s [c i] Hci [Hs Hv].
    apply enumerate_elem in Hci as [Hc Hi].
    apply np_where_eq_elem, lookup_lt_Some in Hi.
    destruct (process_local_maximum_total s c i) as (s' & Hs' & Hlen' & Hv');
      [done | lia |].
    exists s'. split; [done|]. split; [done|].
    intros v Hin. destruct (Hv' v Hin) as [->|?]; [by right | by apply Hv].
Qed.
End Propagation.

(** ** Cluster sizes *)

Lemma overlapping_maxima_adjacent_lookup neighbors lm_idx i i' idx idx' s :
  overlapping_maxima_adjacent neighbors lm_idx →
  i ∈ lm_idx → i' ∈ lm_idx →
  neighbors !! i = Some idx → neighbors !! i' = Some idx' →
  s ∈ idx → s ∈ idx' → i ∈ idx'.
Proof.
  unfold overlapping_maxima_adjacent. rewrite Forall_forall.
  intros H Hi Hi' Hidx Hidx' Hs Hs'.
  specialize (H i Hi). rewrite Forall_forall in H. specialize (H i' Hi').
  rewrite (list_lookup_total_correct _ _ _ Hidx) in H.
  rewrite (list_lookup_total_correct _ _ _ Hidx') in H.
  apply H. apply Exists_exists. eauto.
Qed.

Lemma where_from_length (start : nat) (v : Z) (a : list Z) :
  length (where_from start v a) = length (filter (λ x, x = v) a).
Proof.
  revert start. induction a as [|x a IH]; intros start; simpl; [done|].
  rewrite filter_cons. case_decide; simpl; by rewrite IH.
Qed.

(** A duplicate-free set of points that all carry [c] is no larger than
    the cluster [c]. *)
Lemma cluster_size_ge (labels : list Z) (c : Z) (idx : list nat) :
  NoDup idx → (∀ k, k ∈ idx → labels !! k = Some c) →
  (length idx ≤ cluster_size labels c)%nat.
Proof.
  intros Hnd Hall. unfold cluster_size.
  rewrite <- (where_from_length 0). apply submseteq_length.
  apply NoDup_submseteq; [done|]. intros k Hk.
  apply (np_where_eq_elem c labels k). by apply Hall.
Qed.

Section InnerLoop.
Variable count : Z.
Variable i : nat.

(** The inner loop for a local maximum that already has the label [li]:
    its unlabelled neighbours adopt [li], nothing else changes. *)
Lemma fill_labelled (li : Z) (nb : list nat) (s : list Z) :
  s !! i = Some li → li ≠ -1 →
  (∀ j, j ∈ nb → (j < length s)%nat) →
  ∃ s', for_each (visit count i) nb s = Ok s' ∧
    length s' = length s ∧
    (∀ k, k ∈ nb → s !! k = Some (-1) → s' !! k = Some li) ∧
    (∀ k, k ∉ nb ∨ s !! k ≠ Some (-1) → s' !! k = s !! k).
Proof.
  revert s. induction nb as [|j nb IH]; intros s Hi Hli Hrange; simpl.
  - exists s. split_and!; [done..| |done]. intros k []%elem_of_nil.
  - assert (Hj : (j < length s)%nat) by (apply Hrange; left).
    destruct (lookup_lt_is_Some_2 s j Hj) as [lj Hlj].
    unfold visit at 1. rewrite (proj2 (getitem_Ok _ _ _) Hi). simpl.
    rewrite decide_False by done.
    rewrite (proj2 (getitem_Ok _ _ _) Hlj). simpl.
    destruct (decide (lj = -1)) as [-> | Hne].
    + rewrite setitem_lt by done. simpl.
      assert (Hij : i ≠ j) by (intros ->; congruence).
      destruct (IH (<[j:=li]> s)) as (s' & Hrun & Hlen' & Ha & Hb).
      { by rewrite list_lookup_insert_ne. }
      { done. }
      { intros k Hk. rewrite length_insert. apply Hrange. by right. }
      exists s'. rewrite length_insert in Hlen'.
      split_and!; [done..| |].
      * intros k [->|Hk]%elem_of_cons Hk1.
        -- rewrite Hb; [by apply list_lookup_insert_eq|].
           right. rewrite list_lookup_insert_eq by done. congruence.
        -- destruct (decide (k = j)) as [-> | Hkj].
           ++ rewrite Hb; [by apply list_lookup_insert_eq|].
              right. rewrite list_lookup_insert_eq by done. congruence.
           ++ apply Ha; [done|]. by rewrite list_lookup_insert_ne.
      * intros k Hk.
        assert (Hkj : j ≠ k).
        { intros <-. destruct Hk as [Hk|Hk]; [|done]. apply Hk. left. }
        rewrite Hb; [by apply list_lookup_insert_ne|].
        rewrite list_lookup_insert_ne by done.
        destruct Hk as [Hk|Hk]; [left | by right].
        intros ?. apply Hk. by right.
    + destruct (IH s) as (s' & Hrun & Hlen' & Ha & Hb); [done..| |].
      { intros k Hk. apply Hrange. by right. }
      exists s'. split_and!; [done..| |].
      * intros k [->|Hk]%elem_of_cons Hk1; [congruence | by apply Ha].
      * intros k Hk. apply Hb. destruct Hk as [Hk|Hk]; [left | by right].
        intros ?. apply Hk. by right.
Qed.

(** The inner loop for a local maximum that starts a cluster in a
    neighbourhood holding only [-1] or the new label: all the
    neighbours end with the new label, nothing else changes. *)
Lemma fill_fresh (nb : list nat) (s : list Z) :
  count ≠ -1 → (i < length s)%nat →
  (∀ j, j ∈ nb → (j < length s)%nat) →
  (∀ k, k = i ∨ k ∈ nb → s !! k = Some (-1) ∨ s !! k = Some count) →
  ∃ s', for_each (visit count i) nb s = Ok s' ∧
    length s' = length s ∧
    (∀ k, k ∈ nb → s' !! k = Some count) ∧
    (∀ k, k ∉ nb → k ≠ i → s' !! k = s !! k) ∧
    (∀ k, s !! k = Some count → s' !! k = Some count).
Proof.
  intros Hcount. revert s.
  induction nb as [|j nb IH]; intros s Hi Hrange Hpre; simpl.
  - exists s. split_and!; try done. intros k []%elem_of_nil.
  - assert (Hj : (j < length s)%nat) by (apply Hrange; left).
    destruct (visit_total count i s j Hi Hj) as [s1 Hv].
    rewrite Hv. simpl.
    pose proof (visit_length _ _ _ _ _ Hv) as Hlen1.
    (* what the visit did *)
    assert (Hs1 : s1 !! j = Some count ∧
                  (∀ k, k ≠ j → k ≠ i → s1 !! k = s !! k) ∧
                  (∀ k, s1 !! k = s !! k ∨ s1 !! k = Some count)).
    { apply visit_spec in Hv as (li & Hli & _ & Hv). case_decide as Hl.
      - subst s1. split_and!.
        + apply list_lookup_insert_eq. case_decide; by rewrite ?length_insert.
        + intros k Hkj Hki. rewrite list_lookup_insert_ne by done.
          case_decide; [by rewrite list_lookup_insert_ne | done].
        + intros k. destruct (decide (k = j)) as [-> | Hkj].
          * right. apply list_lookup_insert_eq.
            case_decide; by rewrite ?length_insert.
          * rewrite list_lookup_insert_ne by done. case_decide; [|by left].
            destruct (decide (k = i)) as [-> | Hki].
            -- right. by apply list_lookup_insert_eq.
            -- left. by apply list_lookup_insert_ne.
      - destruct Hv as (lj & Hlj & ->).
        assert (li = count) as ->.
        { destruct (Hpre i) as [?|?]; [by left | congruence..]. }
        destruct (Hpre j) as [Hj1|Hjc]; [right; left|..].
        + assert (lj = -1) as -> by congruence.
          rewrite decide_True by done. split_and!.
          * by apply list_lookup_insert_eq.
          * intros k ??. by apply list_lookup_insert_ne.
          * intros k. destruct (decide (k = j)) as [->|?].
            -- right. by apply list_lookup_insert_eq.
            -- left. by apply list_lookup_insert_ne.
        + assert (lj = count) as -> by congruence.
          rewrite decide_False by done. split_and!; [done | done |].
          intros k. by left. }
    destruct Hs1 as (Hs1j & Hs1o & Hs1m).
    destruct (IH s1) as (s' & Hrun & Hlen' & Hin & Hout & Hmono).
    { lia. }
    { intros k Hk. rewrite Hlen1. apply Hrange. by right. }
    { intros k Hk. destruct (Hs1m k) as [-> | ->]; [|by right].
      apply Hpre. destruct Hk as [?|?]; [by left | right; by right]. }
    exists s'. split_and!; [done | congruence | ..].
    + intros k [->|Hk]%elem_of_cons; [by apply Hmono | by apply Hin].
    + intros k Hk Hki. apply not_elem_of_cons in Hk as [Hkj Hk].
      rewrite Hout by done. by apply Hs1o.
    + intros k Hk. apply Hmono. destruct (Hs1m k) as [-> | ->]; done.
Qed.
End InnerLoop.

Lemma symmetric_neighbors_lookup (neighbors : list (list nat)) (i j : nat)
    (idx idx' : list nat) :
  symmetric_neighbors neighbors →
  neighbors !! i = Some idx → j ∈ idx → neighbors !! j = Some idx' →
  i ∈ idx'.
Proof.
  unfold symmetric_neighbors. rewrite Forall_lookup.
  intros Hsym Hi Hj Hj'.
  specialize (Hsym i (i, idx)). simpl in Hsym.
  rewrite list_lookup_imap, Hi in Hsym. specialize (Hsym eq_refl).
  rewrite Forall_forall in Hsym. specialize (Hsym j Hj).
  by rewrite (list_lookup_total_correct _ _ _ Hj') in Hsym.
Qed.

Section InnerLoopAny.
Variable count : Z.
Variable i : nat.
Hypothesis Hcount : count ≠ -1.

(** One visit while [labels[i]] is [-1] or already the new label. *)
Lemma visit_fresh (s : list Z) (j : nat) :
  (i < length s)%nat → (j < length s)%nat →
  s !! i = Some (-1) ∨ s !! i = Some count →
  ∃ s1, visit count i s j = Ok s1 ∧ length s1 = length s ∧
    (∀ k, s1 !! k = s !! k ∨ s1 !! k = Some count) ∧
    (∀ k, k ≠ j → k ≠ i → s1 !! k = s !! k) ∧
    s1 !! j ≠ Some (-1) ∧
    (i = j → s1 !! i = Some count).
Proof.
  intros Hi Hj Hsi.
  destruct (visit_total count i s j Hi Hj) as [s1 Hv].
  exists s1. split; [done|]. split; [by eapply visit_length|].
  apply visit_spec in Hv as (li & Hli & _ & Hv). case_decide as Hl.
  - subst s1.
    assert (Hjj : <[j:=count]>
              (if decide (j = 0%nat) then <[i:=count]> s else s) !! j
            = Some count).
    { apply list_lookup_insert_eq. case_decide; by rewrite ?length_insert. }
    split_and!.
    + intros k. destruct (decide (k = j)) as [-> | Hkj]; [by right|].
      rewrite list_lookup_insert_ne by done. case_decide; [|by left].
      destruct (decide (k = i)) as [-> | Hki].
      * right. by apply list_lookup_insert_eq.
      * left. by apply list_lookup_insert_ne.
    + intros k Hkj Hki. rewrite list_lookup_insert_ne by done.
      case_decide; [by rewrite list_lookup_insert_ne | done].
    + rewrite Hjj. congruence.
    + intros ->. done.
  - destruct Hv as (lj & Hlj & ->).
    assert (li = count) as -> by (destruct Hsi; congruence).
    destruct (decide (lj = -1)) as [->|Hlj1].
    + split_and!.
      * intros k. destruct (decide (k = j)) as [->|?].
        -- right. by apply list_lookup_insert_eq.
        -- left. by apply list_lookup_insert_ne.
      * intros k ??. by apply list_lookup_insert_ne.
      * rewrite list_lookup_insert_eq by done. congruence.
      * intros ->. congruence.
    + split_and!; [by left | done | congruence |].
      intros ->. congruence.
Qed.

(** The inner loop for a local maximum that starts a cluster, whatever
    labels its neighbours have: all its neighbours end up labelled, it
    carries the new label itself, and every point keeps its label or
    takes the new one. *)
Lemma fill_any (nb : list nat) (s : list Z) :
  (i < length s)%nat →
  (∀ j, j ∈ nb → (j < length s)%nat) →
  s !! i = Some (-1) ∨ s !! i = Some count →
  ∃ s', for_each (visit count i) nb s = Ok s' ∧
    length s' = length s ∧
    (∀ k, s' !! k = s !! k ∨ s' !! k = Some count) ∧
    (∀ k, k ∈ nb → s' !! k ≠ Some (-1)) ∧
    (∀ k, k ∉ nb → k ≠ i → s' !! k = s !! k) ∧
    (i ∈ nb → s' !! i = Some count).
Proof.
  revert s. induction nb as [|j nb IH]; intros s Hi Hrange Hsi; simpl.
  - exists s. split_and!; try done.
    + intros k. by left.
    + intros k []%elem_of_nil.
    + intros []%elem_of_nil.
  - assert (Hj : (j < length s)%nat) by (apply Hrange; left).
    destruct (visit_fresh s j Hi Hj Hsi)
      as (s1 & -> & Hlen1 & Hval1 & Hout1 & Hj1 & Hi1).
    simpl.
    destruct (IH s1) as (s' & Hrun & Hlen' & Hval & Hin & Hout & Hself).
    { lia. }
    { intros k Hk. rewrite Hlen1. apply Hrange. by right. }
    { destruct (Hval1 i) as [-> | ->]; [done | by right]. }
    exists s'. split_and!; [done | congruence | ..].
    + intros k. destruct (Hval k) as [-> | ->]; [apply Hval1 | by right].
    + intros k [->|Hk]%elem_of_cons; [|by apply Hin].
      destruct (Hval j) as [-> | ->]; [done | congruence].
    + intros k [Hkj Hk]%not_elem_of_cons Hki.
      rewrite Hout by done. by apply Hout1.
    + intros [->|Hin']%elem_of_cons; [|by apply Hself].
      destruct (Hval j) as [-> | ->]; [by apply Hi1 | done].
Qed.
End InnerLoopAny.

(** A loop invariant that may speak of the elements already processed. *)
Lemma for_each_prefix_invariant {S B : Type} (body : S → B → result S)
    (I : list B → S → Prop) (xs : list B) (st : S) :
  I [] st →
  (∀ pre x rest s, xs = pre ++ x :: rest → I pre s →
     ∃ s', body s x = Ok s' ∧ I (pre ++ [x]) s') →
  ∃ st', for_each body xs st = Ok st' ∧ I xs st'.
Proof.
  intros Hinit Hstep.
  cut (∀ rest pre s, xs = pre ++ rest → I pre s →
         ∃ st', for_each body rest s = Ok st' ∧ I xs st').
  { intros H. by apply (H xs [] st). }
  induction rest as [|x rest IH]; intros pre s Hxs Hpre; simpl.
  - exists s. split; [done|]. by rewrite Hxs, app_nil_r.
  - destruct (Hstep pre x rest s Hxs Hpre) as (s' & -> & Hs'). simpl.
    apply (IH (pre ++ [x])); [|done]. by rewrite <- app_assoc.
Qed.

Section ClusterSizes.
Variable neighbors : list (list nat).
Variable lm_idx : list nat.
Hypothesis Hwf : wf_neighbors neighbors.
Hypothesis Hrange : ∀ i, i ∈ lm_idx → (i < length neighbors)%nat.
Hypothesis Hadj : overlapping_maxima_adjacent neighbors lm_idx.

Lemma clusters_cover_step (pre rest : list (Z * nat)) (c : Z) (i : nat)
    (s : list Z) :
  enumerate lm_idx = pre ++ (c, i) :: rest →
  clusters_cover neighbors pre s →
  ∃ s', process_local_maximum neighbors s (c, i) = Ok s' ∧
    clusters_cover neighbors (pre ++ [(c, i)]) s'.
Proof.
  intros Hxs (Hlen & Hin & Hall & Hown).
  assert (Hci : (c, i) ∈ enumerate lm_idx).
  { rewrite Hxs. apply elem_of_app. right. left. }
  apply enumerate_elem in Hci as [Hc Hi].
  assert (Hpre : ∀ c' i', (c', i') ∈ pre → i' ∈ lm_idx).
  { intros c' i' Hp. apply (enumerate_elem lm_idx c').
    rewrite Hxs. apply elem_of_app. by left. }
  pose proof (Hrange i Hi) as HiN.
  destruct (lookup_lt_is_Some_2 neighbors i HiN) as [nb Hnb].
  destruct (wf_neighbors_lookup _ _ _ Hwf Hnb) as [Hself Hnbrange].
  assert (HiS : (i < length s)%nat) by lia.
  destruct (lookup_lt_is_Some_2 s i HiS) as [li Hli].
  assert (Hnbs : ∀ j, j ∈ nb → (j < length s)%nat).
  { intros j Hj. rewrite Hlen. by apply Hnbrange. }
  unfold process_local_maximum.
  rewrite (proj2 (getitem_Ok _ _ _) Hnb). simpl.
  destruct (decide (li = -1)) as [-> | Hne].
  - (* a new cluster: the whole neighbourhood is still unlabelled *)
    assert (Hfree : ∀ k, k ∈ nb → s !! k = Some (-1)).
    { intros k Hk. destruct (lookup_lt_is_Some_2 s k (Hnbs k Hk)) as [w Hw].
      destruct (decide (w = -1)) as [-> | Hw1]; [done|]. exfalso.
      destruct (Hin k w Hw Hw1) as (c' & i' & idx' & Hp & Hidx' & Hk').
      assert (i ∈ idx') as Hii'.
      { eapply (overlapping_maxima_adjacent_lookup neighbors lm_idx i i');
          eauto. }
      destruct (Hall c' i' idx' i Hp Hidx' Hii') as (v & Hv & Hv1).
      congruence. }
    destruct (fill_fresh c i nb s) as (s' & Hrun & Hlen' & Hnew & Hout & _);
      [lia | done | done | |].
    { intros k [->|Hk]; left; [done | by apply Hfree]. }
    assert (Hold : ∀ k, k ∉ nb → s' !! k = s !! k).
    { intros k Hk. apply Hout; [done|]. by intros ->. }
    exists s'. split; [done|]. split_and!.
    + congruence.
    + intros k v Hv Hv1. destruct (decide (k ∈ nb)) as [Hk|Hk].
      * exists c, i, nb. split_and!; [|done..].
        apply elem_of_app. right. left.
      * rewrite Hold in Hv by done.
        destruct (Hin k v Hv Hv1) as (c' & i' & idx' & ? & ? & ?).
        exists c', i', idx'. split_and!; [|done..].
        apply elem_of_app. by left.
    + intros c' i' idx' k [Hp|Hp]%elem_of_app Hidx' Hk.
      * destruct (Hall c' i' idx' k Hp Hidx' Hk) as (v & Hv & Hv1).
        exists v. split; [|done]. rewrite Hold; [done|].
        intros Hk'. apply Hfree in Hk'. congruence.
      * apply list_elem_of_singleton in Hp as [= -> ->].
        assert (idx' = nb) as -> by congruence.
        exists c. split; [by apply Hnew | lia].
    + intros k v Hv Hv1. destruct (decide (k ∈ nb)) as [Hk|Hk].
      * rewrite (Hnew k Hk) in Hv. injection Hv as <-.
        exists i, nb. split_and!; [|done..].
        apply elem_of_app. right. left.
      * rewrite Hold in Hv by done.
        destruct (Hown k v Hv Hv1) as (i' & idx' & Hp & Hidx' & Hk').
        exists i', idx'. split_and!; [by apply elem_of_app; left | done |].
        intros k' Hk'in. rewrite Hold; [by apply Hk'|].
        intros Hk'nb. apply Hfree in Hk'nb.
        specialize (Hk' k' Hk'in). congruence.
  - (* a local maximum already inside a cluster: that cluster grows *)
    destruct (fill_labelled c i li nb s) as (s' & Hrun & Hlen' & Ha & Hb);
      [done..|].
    assert (Hkeep : ∀ k v, s !! k = Some v → v ≠ -1 → s' !! k = Some v).
    { intros k v Hv Hv1. rewrite Hb; [done|]. right. congruence. }
    assert (Hfrom : ∀ k v, s' !! k = Some v → v ≠ -1 →
              s !! k = Some v ∨ (k ∈ nb ∧ v = li)).
    { intros k v Hv Hv1.
      assert (Hk : (k < length s)%nat).
      { rewrite <- Hlen'. by eapply lookup_lt_Some. }
      destruct (lookup_lt_is_Some_2 s k Hk) as [w Hw].
      destruct (decide (w = -1)) as [-> | Hw1].
      - destruct (decide (k ∈ nb)) as [Hkn|Hkn].
        + right. split; [done|]. rewrite (Ha k Hkn Hw) in Hv. congruence.
        + rewrite Hb in Hv by (by left). congruence.
      - left. rewrite (Hkeep k w Hw Hw1) in Hv. congruence. }
    exists s'. split; [done|]. split_and!.
    + congruence.
    + intros k v Hv Hv1. destruct (Hfrom k v Hv Hv1) as [Hs|[Hk _]].
      * destruct (Hin k v Hs Hv1) as (c' & i' & idx' & ? & ? & ?).
        exists c', i', idx'. split_and!; [|done..].
        apply elem_of_app. by left.
      * exists c, i, nb. split_and!; [|done..].
        apply elem_of_app. right. left.
    + intros c' i' idx' k [Hp|Hp]%elem_of_app Hidx' Hk.
      * destruct (Hall c' i' idx' k Hp Hidx' Hk) as (v & Hv & Hv1).
        exists v. split; [by apply Hkeep | done].
      * apply list_elem_of_singleton in Hp as [= -> ->].
        assert (idx' = nb) as -> by congruence.
        destruct (lookup_lt_is_Some_2 s k (Hnbs k Hk)) as [w Hw].
        destruct (decide (w = -1)) as [-> | Hw1].
        -- exists li. split; [by apply Ha | done].
        -- exists w. split; [by apply Hkeep | done].
    + intros k v Hv Hv1.
      assert (Hsrc : ∃ k0, s !! k0 = Some v).
      { destruct (Hfrom k v Hv Hv1) as [Hs|[_ ->]]; eauto. }
      destruct Hsrc as [k0 Hk0].
      destruct (Hown k0 v Hk0 Hv1) as (i' & idx' & Hp & Hidx' & Hk').
      exists i', idx'. split_and!; [by apply elem_of_app; left | done |].
      intros k' Hk'in. apply Hkeep; [by apply Hk' | done].
Qed.

Lemma clusters_cover_final :
  ∃ out, for_each (process_local_maximum neighbors) (enumerate lm_idx)
           (replicate (length neighbors) (-1)) = Ok out ∧
    clusters_cover neighbors (enumerate lm_idx) out.
Proof.
  apply (for_each_prefix_invariant _ (clusters_cover neighbors)).
  - split_and!.
    + by rewrite length_replicate.
    + intros k v [-> _]%lookup_replicate Hv. done.
    + intros c i idx k []%elem_of_nil.
    + intros k v [-> _]%lookup_replicate Hv. done.
  - intros pre [c i] rest s Hxs Hs. by eapply clusters_cover_step.
Qed.
End ClusterSizes.

Section StartedClusters.
Variable neighbors : list (list nat).
Variable lm_idx : list nat.
Hypothesis Hwf : wf_neighbors neighbors.
Hypothesis Hsym : symmetric_neighbors neighbors.
Hypothesis Hrange : ∀ i, i ∈ lm_idx → (i < length neighbors)%nat.

Lemma clusters_started_step (pre rest : list (Z * nat)) (c : Z) (i : nat)
    (s : list Z) :
  enumerate lm_idx = pre ++ (c, i) :: rest →
  clusters_started neighbors pre s →
  ∃ s', process_local_maximum neighbors s (c, i) = Ok s' ∧
    clusters_started neighbors (pre ++ [(c, i)]) s'.
Proof.
  intros Hxs (Hlen & Hall & Hown).
  assert (Hci : (c, i) ∈ enumerate lm_idx).
  { rewrite Hxs. apply elem_of_app. right. left. }
  apply enumerate_elem in Hci as [Hc Hi].
  assert (Hpre : ∀ c' i', (c', i') ∈ pre → i' ∈ lm_idx).
  { intros c' i' Hp. apply (enumerate_elem lm_idx c').
    rewrite Hxs. apply elem_of_app. by left. }
  pose proof (Hrange i Hi) as HiN.
  destruct (lookup_lt_is_Some_2 neighbors i HiN) as [nb Hnb].
  destruct (wf_neighbors_lookup _ _ _ Hwf Hnb) as [Hself Hnbrange].
  assert (HiS : (i < length s)%nat) by lia.
  destruct (lookup_lt_is_Some_2 s i HiS) as [li Hli].
  assert (Hnbs : ∀ j, j ∈ nb → (j < length s)%nat).
  { intros j Hj. rewrite Hlen. by apply Hnbrange. }
  unfold process_local_maximum.
  rewrite (proj2 (getitem_Ok _ _ _) Hnb). simpl.
  destruct (decide (li = -1)) as [-> | Hne].
  - (* a new cluster *)
    destruct (fill_any c i (ltac:(lia)) nb s)
      as (s' & Hrun & Hlen' & Hval & Hin & Hout & Hnew); [done | done | by left |].
    specialize (Hnew Hself).
    exists s'. split; [done|]. split_and!.
    + congruence.
    + intros c' i' idx' k [Hp|Hp]%elem_of_app Hidx' Hk.
      * destruct (Hall c' i' idx' k Hp Hidx' Hk) as (v & Hv & Hv1).
        destruct (Hval k) as [Hk'|Hk'].
        -- exists v. split; [congruence | done].
        -- exists c. split; [done | lia].
      * apply list_elem_of_singleton in Hp as [= -> ->].
        assert (idx' = nb) as -> by congruence.
        destruct (lookup_lt_is_Some_2 s' k) as [v Hv].
        { rewrite Hlen'. by apply Hnbs. }
        exists v. split; [done|]. intros ->. by apply (Hin k Hk).
    + intros k v Hv Hv1.
      destruct (decide (v = c)) as [-> | Hvc].
      { exists i. split; [|done]. apply elem_of_app. right. left. }
      assert (Hk : s !! k = Some v).
      { destruct (Hval k) as [Hk'|Hk']; congruence. }
      destruct (Hown k v Hk Hv1) as (i0 & Hp & Hi0).
      exists i0. split; [by apply elem_of_app; left|].
      destruct (Hval i0) as [Hi0'|Hi0']; [congruence|]. exfalso.
      assert (Hi0i : i0 ≠ i) by (intros ->; congruence).
      assert (Hi0nb : i0 ∈ nb).
      { destruct (decide (i0 ∈ nb)) as [|Hnot]; [done|].
        rewrite (Hout i0 Hnot Hi0i) in Hi0'. congruence. }
      pose proof (Hrange i0 (Hpre v i0 Hp)) as Hi0N.
      destruct (lookup_lt_is_Some_2 neighbors i0 Hi0N) as [idx0 Hidx0].
      pose proof (symmetric_neighbors_lookup _ _ _ _ _ Hsym Hnb Hi0nb Hidx0)
        as Hback.
      destruct (Hall v i0 idx0 i Hp Hidx0 Hback) as (w & Hw & Hw1).
      congruence.
  - (* a local maximum already inside a cluster *)
    destruct (fill_labelled c i li nb s) as (s' & Hrun & Hlen' & Ha & Hb);
      [done..|].
    assert (Hkeep : ∀ k v, s !! k = Some v → v ≠ -1 → s' !! k = Some v).
    { intros k v Hv Hv1. rewrite Hb; [done|]. right. congruence. }
    exists s'. split; [done|]. split_and!.
    + congruence.
    + intros c' i' idx' k [Hp|Hp]%elem_of_app Hidx' Hk.
      * destruct (Hall c' i' idx' k Hp Hidx' Hk) as (v & Hv & Hv1).
        exists v. split; [by apply Hkeep | done].
      * apply list_elem_of_singleton in Hp as [= -> ->].
        assert (idx' = nb) as -> by congruence.
        destruct (lookup_lt_is_Some_2 s k (Hnbs k Hk)) as [w Hw].
        destruct (decide (w = -1)) as [-> | Hw1].
        -- exists li. split; [by apply Ha | done].
        -- exists w. split; [by apply Hkeep | done].
    + intros k v Hv Hv1.
      assert (Hsrc : ∃ k0, s !! k0 = Some v).
      { assert (Hk : (k < length s)%nat).
        { rewrite <- Hlen'. by eapply lookup_lt_Some. }
        destruct (lookup_lt_is_Some_2 s k Hk) as [w Hw].
        destruct (decide (w = -1)) as [-> | Hw1].
        - destruct (decide (k ∈ nb)) as [Hkn|Hkn].
          + rewrite (Ha k Hkn Hw) in Hv. exists i. congruence.
          + rewrite Hb in Hv by (by left). congruence.
        - rewrite (Hkeep k w Hw Hw1) in Hv. exists k. congruence. }
      destruct Hsrc as [k0 Hk0].
      destruct (Hown k0 v Hk0 Hv1) as (i0 & Hp & Hi0).
      exists i0. split; [by apply elem_of_app; left | by apply Hkeep].
Qed.

Lemma clusters_started_final :
  ∃ out, for_each (process_local_maximum neighbors) (enumerate lm_idx)
           (replicate (length neighbors) (-1)) = Ok out ∧
    clusters_started neighbors (enumerate lm_idx) out.
Proof.
  apply (for_each_prefix_invariant _ (clusters_started neighbors)).
  - split_and!.
    + by rewrite length_replicate.
    + intros c i idx k []%elem_of_nil.
    + intros k v [-> _]%lookup_replicate Hv. done.
  - intros pre [c i] rest s Hxs Hs. by eapply clusters_started_step.
Qed.
End StartedClusters.

(** C6 (as the code has it): on symmetric neighbour lists the labeler
    returns an array as long as the input in which every label other than
    [-1] is the enumeration index of a local maximum that carries this
    label itself, the one that started the cluster. The labels present
    therefore lie in [{0, ..., k-1}], with [k] the number of local maxima,
    but the counter is [enumerate]'s and advances once per local maximum,
    so they need not be contiguous. *)
Theorem labels_are_maxima_indices (neighbors : list (list nat)) (min_locs : Z) :
  wf_neighbors neighbors → symmetric_neighbors neighbors →
  ∃ lm out, local_maxima neighbors min_locs = Ok lm ∧
    label_points neighbors min_locs = Ok out ∧
    length out = length neighbors ∧
    ∀ c, c ∈ out →
      c = -1 ∨
      0 ≤ c < Z.of_nat (length (np_where_eq 1 lm)) ∧
      ∃ i, np_where_eq 1 lm !! Z.to_nat c = Some i ∧ out !! i = Some c.
Proof.
  intros Hwf Hsym.
  destruct (local_maxima_marks neighbors min_locs Hwf) as (lm & Hlm & Hlen & _).
  assert (Hrange : ∀ i, i ∈ np_where_eq 1 lm → (i < length neighbors)%nat).
  { intros i Hi%np_where_eq_elem%lookup_lt_Some. lia. }
  destruct (clusters_started_final neighbors (np_where_eq 1 lm) Hwf Hsym Hrange)
    as (out & Hout & Hlen' & _ & Hown).
  exists lm, out. split; [done|]. split.
  { unfold label_points. by rewrite Hlm. }
  split; [done|]. intros c Hc.
  destruct (decide (c = -1)) as [-> | Hc1]; [by left | right].
  apply list_elem_of_lookup in Hc as [k Hk].
  destruct (Hown k c Hk Hc1) as (i & Hci & Hi).
  apply list_elem_of_lookup in Hci as [p Hp].
  apply enumerate_lookup in Hp as [-> Hp].
  pose proof (lookup_lt_Some _ _ _ Hp). split; [lia|].
  exists i. by rewrite Nat2Z.id.
Qed.

(** X3: where the size bound does hold: when the neighbour lists hold no
    duplicates and local maxima with overlapping neighbourhoods are
    neighbours of each other, every cluster in the labeler's output has at
    least [min_locs + 1] members, for it contains the whole neighbourhood
    of the local maximum that started it. *)
Theorem separated_clusters_exceed_min_locs (neighbors : list (list nat))
    (min_locs : Z) :
  wf_neighbors neighbors →
  Forall NoDup neighbors →
  overlapping_maxima_adjacent neighbors (maxima_of neighbors min_locs) →
  ∃ out, label_points neighbors min_locs = Ok out ∧
    ∀ c, c ∈ out → c ≠ -1 → min_locs + 1 ≤ Z.of_nat (cluster_size out c).
Proof.
  intros Hwf Hnd Hadj. unfold maxima_of in Hadj.
  destruct (local_maxima_marks neighbors min_locs Hwf) as (lm & Hlm & Hlen & _).
  rewrite Hlm in Hadj.
  assert (Hrange : ∀ i, i ∈ np_where_eq 1 lm → (i < length neighbors)%nat).
  { intros i Hi%np_where_eq_elem%lookup_lt_Some. lia. }
  destruct (clusters_cover_final neighbors (np_where_eq 1 lm) Hwf Hrange Hadj)
    as (out & Hout & _ & _ & _ & Hown).
  exists out. split.
  { unfold label_points. by rewrite Hlm. }
  intros c Hc Hc1. apply list_elem_of_lookup in Hc as [k Hk].
  destruct (Hown k c Hk Hc1) as (i & idx & Hci & Hidx & Hall).
  apply enumerate_elem in Hci as [_ Hi%np_where_eq_elem].
  pose proof (local_maximum_count _ _ _ _ _ Hwf Hlm Hi Hidx) as Hn.
  assert (NoDup idx) as Hnd'.
  { rewrite Forall_lookup in Hnd. by eapply Hnd. }
  pose proof (cluster_size_ge out c idx Hnd' Hall). lia.
Qed.

(** Without frames [_cluster] is the labeler on the neighbour lists of the
    tree. *)
Lemma _cluster_without_frames {Points Radius : Type}
    (query_ball_tree : Points → Radius → list (list nat))
    (X : Points) (radius : Radius) (min_locs : Z) :
  _cluster query_ball_tree X radius min_locs None
  = label_points (query_ball_tree X radius) min_locs.
Proof.
  unfold _cluster. by destruct (label_points _ _).
Qed.

(** ** The labeler at concrete inputs *)

Lemma shared_neighbor_lists :
  query_ball shared_neighbor_points 100 =
  [[0; 1; 3; 4]; [0; 1; 2]; [1; 2; 5; 6]; [0; 3; 4]; [0; 3; 4]; [2; 5; 6];
   [2; 5; 6]]%nat.
Proof. reflexivity. Qed.

Lemma crowded_lists :
  query_ball crowded_points 100 =
  [[0; 2; 3; 4]; [1; 2; 3; 5]; [0; 1; 2; 3]; [0; 1; 2; 3]; [0; 4]; [1; 5]]%nat.
Proof. reflexivity. Qed.

Lemma two_pairs_lists :
  query_ball two_pairs 100 = [[0; 1]; [0; 1]; [2; 3]; [2; 3]]%nat.
Proof. reflexivity. Qed.

(** C3, counterexample: with [min_locs = 3] the local maxima are the points
    0 and 2. Point 1 gets the label 0 from the first of them; the second
    one is still unlabelled when its turn comes, and its visit of the
    neighbour 1 overwrites that label with 1. *)
Lemma labelled_neighbor_relabelled :
  let neighbors := query_ball shared_neighbor_points 100 in
  local_maxima neighbors 3 = Ok [1; 0; 1; 0; 0; 0; 0] ∧
  process_local_maximum neighbors (replicate 7 (-1)) (0, 0%nat)
    = Ok [0; 0; -1; 0; 0; -1; -1] ∧
  [0; 0; -1; 0; 0; -1; -1] !! 1%nat = Some 0 ∧
  visit 1 2 [0; 0; -1; 0; 0; -1; -1] 1 = Ok [0; 1; -1; 0; 0; -1; -1] ∧
  _cluster query_ball shared_neighbor_points 100 3 None
    = Ok [0; 1; 1; 0; 0; 1; 1].
Proof. vm_compute. done. Qed.

(** C5, the code at the crowded points: the local maxima 0 and 1 are 12
    apart and share their neighbours 2 and 3, which the first of them
    labels; with [min_locs = 3] the cluster 1 is left with two members,
    fewer than [min_locs + 1] and fewer than [min_locs]. *)
Lemma small_cluster :
  let neighbors := query_ball crowded_points 100 in
  wf_neighbors neighbors ∧ Forall NoDup neighbors ∧
  _cluster query_ball crowded_points 100 3 None = Ok [0; 1; 0; 0; 0; 1] ∧
  cluster_size [0; 1; 0; 0; 0; 1] 1 = 2%nat ∧
  ¬ (3 + 1 ≤ Z.of_nat (cluster_size [0; 1; 0; 0; 0; 1] 1)).
Proof.
  split_and!.
  - apply (bool_decide_unpack _). by vm_compute.
  - apply (bool_decide_unpack _). by vm_compute.
  - by vm_compute.
  - by vm_compute.
  - vm_compute. by intros H.
Qed.

(** C6, counterexample: with [min_locs = 1] all four points of the two
    pairs are local maxima; the clusters get the labels 0 and 2, and 1 is
    skipped. *)
Lemma labels_with_gap :
  _cluster query_ball two_pairs 100 1 None = Ok [0; 0; 2; 2] ∧
  ¬ contiguous_from_zero [0; 0; 2; 2].
Proof.
  split; [by vm_compute|]. intros [k Hk].
  assert (2 < k) as H2.
  { apply Hk; [lia|]. by apply (bool_decide_unpack _). }
  assert (1 ∈ [0; 0; 2; 2]) as H1 by (apply Hk; lia).
  by apply (bool_decide_pack _) in H1.
Qed.

(** ** Frame analysis *)

Lemma elem_of_group_keys (labels : list Z) (c : Z) :
  c ∈ group_keys labels ↔ c ∈ labels.
Proof.
  unfold group_keys. rewrite merge_sort_Permutation. apply elem_of_remove_dups.
Qed.

Lemma elem_of_discard_ids (labels frame : list Z) (n_frames c : Z) :
  c ∈ discard_ids labels frame n_frames ↔
  c ∈ labels ∧ _frame_analysis (group_frames labels frame c) n_frames = 0.
Proof.
  unfold discard_ids. rewrite list_elem_of_fmap. split.
  - intros ([c' r] & -> & Hin). simpl.
    apply list_elem_of_filter in Hin as [Hr Hin]. simpl in Hr.
    apply list_elem_of_fmap in Hin as (c'' & [= -> ->] & Hc).
    split; [|done]. by apply (elem_of_group_keys labels c'').
  - intros [Hc Hr]. exists (c, 0). split; [done|].
    apply list_elem_of_filter. split; [done|].
    apply list_elem_of_fmap. exists c. rewrite Hr.
    split; [done | by apply elem_of_group_keys].
Qed.

(** Relabelling that neither creates nor removes members of [c] leaves the
    group of [c] as it was. *)
Lemma group_frames_relabel (f : Z → Z) (labels frame : list Z) (c : Z) :
  (∀ x, x ∈ labels → f x = c ↔ x = c) →
  group_frames (f <$> labels) frame c = group_frames labels frame c.
Proof.
  unfold group_frames. revert frame.
  induction labels as [|l labels IH]; intros frame Hf; [done|].
  destruct frame as [|x frame]; [done|]. simpl.
  rewrite !filter_cons. simpl.
  assert (Hl : f l = c ↔ l = c) by (apply Hf; left).
  assert (IH' := IH frame (λ y Hy, Hf y (ltac:(by right)))).
  destruct (decide (f l = c)) as [H1|H1], (decide (l = c)) as [H2|H2]; simpl.
  - f_equal. apply IH'.
  - by apply Hl in H1.
  - by apply Hl in H2.
  - apply IH'.
Qed.

Lemma frame_analysis_idempotent_Ok (labels frame out : list Z) :
  frame_analysis labels frame = Ok out → frame_analysis out frame = Ok out.
Proof.
  unfold frame_analysis. case_decide as Hlen; [discriminate|].
  intros (n_frames & Hn & [= <-])%bind_Ok.
  set (relabel := λ l : Z,
         if decide (l ∈ discard_ids labels frame n_frames) then -1 else l).
  rewrite length_map, decide_False by (intros H; by apply H).
  rewrite Hn. simpl. f_equal.
  rewrite map_map. apply map_ext_in.
  intros l Hl%list_elem_of_In. fold (relabel l).
  (* the label of a point after the first pass *)
  destruct (decide (relabel l = -1)) as [Hm|Hm].
  { rewrite Hm. by case_decide. }
  assert (Hkeep : relabel l = l ∧ l ∉ discard_ids labels frame n_frames).
  { subst relabel. simpl in *. by case_decide. }
  destruct Hkeep as [Hrl Hnd]. rewrite Hrl in *.
  rewrite decide_False; [done|].
  rewrite elem_of_discard_ids. intros [_ Hfail]. apply Hnd.
  apply elem_of_discard_ids. split; [done|].
  rewrite <- Hfail. f_equal. symmetry.
  apply group_frames_relabel. intros x Hx. subst relabel. simpl.
  case_decide; [|done]. split; [congruence|]. intros ->. done.
Qed.

(** C9: the frame-analysis filter is idempotent, errors included: running
    it on its own output (with the same frames) gives that output again. *)
Theorem frame_analysis_idempotent (labels frame : list Z) :
  (labels1 <- frame_analysis labels frame ;; frame_analysis labels1 frame)
  = frame_analysis labels frame.
Proof.
  destruct (frame_analysis labels frame) as [out|e] eqn:Hfa; simpl; [|done].
  by apply (frame_analysis_idempotent_Ok labels).
Qed.




Lemma np_max_spec (a : list Z) (m : Z) :
  np_max a = Ok m ↔ m ∈ a ∧ ∀ x, x ∈ a → x ≤ m.
Proof.
  assert (Hfold : ∀ (l : list Z) x,
            foldl Z.max x l ∈ x :: l ∧ ∀ y, y ∈ x :: l → y ≤ foldl Z.max x l).
  { induction l as [|y l IH]; intros x; simpl.
    - split; [left|]. intros z ->%list_elem_of_singleton. lia.
    - destruct (IH (Z.max x y)) as [Hin Hle]. split.
      + apply elem_of_cons in Hin as [Heq|Hin]; [|right; by right].
        rewrite Heq. destruct (Z.max_spec x y) as [[_ ->]|[_ ->]];
          [right; left | left].
      + intros z Hz.
        assert (Z.max x y ≤ foldl Z.max (Z.max x y) l) by (apply Hle; left).
        apply elem_of_cons in Hz as [->|Hz]; [lia|].
        apply elem_of_cons in Hz as [->|Hz]; [lia|].
        apply Hle. by right. }
  destruct a as [|x a]; simpl.
  - split; [discriminate|]. intros [[]%elem_of_nil _].
  - destruct (Hfold a x) as [Hin Hle]. split.
    + by intros [= <-].
    + intros [Hm Hmax]. f_equal.
      specialize (Hle m Hm). specialize (Hmax _ Hin). lia.
Qed.

Lemma group_frames_nonempty (labels frame : list Z) (c : Z) :
  length frame = length labels → c ∈ labels →
  group_frames labels frame c ≠ [].
Proof.
  unfold group_frames. revert frame.
  induction labels as [|l labels IH]; intros frame Hlen Hc.
  - by apply elem_of_nil in Hc.
  - destruct frame as [|x frame]; [done|]. simpl.
    rewrite filter_cons. simpl. case_decide as Hl; [done|].
    apply IH; [by injection Hlen|].
    apply elem_of_cons in Hc as [->|Hc]; done.
Qed.



(** ** Arithmetic on finite values *)

Lemma fdiv_Fin (x y : R) : y ≠ 0%R → fdiv (Fin x) (Fin y) = Fin (x / y).
Proof. intros Hy. simpl. by destruct (Req_dec_T y 0). Qed.


Lemma fdiv_pos_zero (x y : R) :
  (0 < x)%R → y = 0%R → fdiv (Fin x) (Fin y) = Inf false.
Proof.
  intros Hx Hy. simpl. destruct (Req_dec_T y 0); [|done].
  destruct (Req_dec_T x 0); [lra|]. unfold signed_inf.
  destruct (Rlt_dec x 0); [lra | done].
Qed.

Lemma fsqrt_Fin (x : R) : (0 <= x)%R → fsqrt (Fin x) = Fin (sqrt x).
Proof. intros Hx. simpl. destruct (Rlt_dec x 0); [lra | done]. Qed.

Lemma inverse_square_positive (l : R) :
  positive_weight (fdiv (Fin 1) (fsquare (Fin l))).
Proof.
  unfold fsquare, fmul.
  destruct (Req_dec_T (l * l) 0) as [H0|H0].
  - rewrite fdiv_pos_zero by (done || lra). done.
  - rewrite fdiv_Fin by done. simpl.
    apply Rdiv_lt_0_compat; [lra|]. nra.
Qed.

Lemma fadd_positive (a w : npfloat) :
  positive_weight w →
  positive_weight a ∨ a = Fin 0 →
  positive_weight (fadd a w).
Proof.
  intros Hw [Ha| ->].
  - destruct a as [x|[]|], w as [y|[]|]; simpl in *; try done. lra.
  - destruct w as [y|[]|]; simpl in *; try done. lra.
Qed.

Lemma np_fsum_positive (ws : list npfloat) :
  ws ≠ [] → Forall positive_weight ws → positive_weight (np_fsum ws).
Proof.
  unfold np_fsum. intros Hne Hall.
  cut (∀ a, positive_weight a ∨ a = Fin 0 → positive_weight (foldl fadd a ws)).
  { intros H. apply H. by right. }
  induction Hall as [|w ws Hw Hall IH]; [done|]. intros a Ha. simpl.
  destruct ws as [|w' ws].
  - simpl. by apply fadd_positive.
  - apply IH; [done|]. left. by apply fadd_positive.
Qed.

Lemma positive_weight_nonzero (w : npfloat) :
  positive_weight w → is_zero w = false.
Proof.
  destruct w as [x|s|]; simpl; try done.
  intros Hx. destruct (Req_dec_T x 0); [lra | done].
Qed.

(** [np.average] with inverse-square weights of at least one row never
    raises. *)
Lemma np_average_inverse_square (a : list npfloat) (lp : list R) :
  lp ≠ [] →
  ∃ v, np_average a (inverse_square (series lp)) = Ok v.
Proof.
  intros Hne. unfold np_average.
  rewrite positive_weight_nonzero; [eauto|].
  apply np_fsum_positive.
  - by destruct lp.
  - unfold inverse_square, series. rewrite map_map.
    apply Forall_forall. intros w (l & <- & _)%list_elem_of_In%in_map_iff.
    apply inverse_square_positive.
Qed.


(** ** Degenerate clusters *)






Lemma cluster_center_3D_Ok (g : GroupLocs.t) (zcol : list R) :
  GroupLocs.z g = Some zcol →
  GroupLocs.lpx g ≠ [] → GroupLocs.lpy g ≠ [] →
  ∃ t, cluster_center g = Ok t ∧
    Center.n t = len g ∧
    Center.lpx t =
      fdiv (fadd (axis_precision (GroupLocs.x g) (GroupLocs.lpx g) (len g))
                 (axis_precision (GroupLocs.y g) (GroupLocs.lpy g) (len g)))
           (Fin 2) ∧
    Center.lpy t = Center.lpx t ∧
    Center.lpz t = fmul (Fin 2) (Center.lpx t).
Proof.
  intros Hz Hx Hy. unfold cluster_center. rewrite Hz.
  destruct (np_average_inverse_square (series (GroupLocs.x g)) _ Hx)
    as [vx ->].
  destruct (np_average_inverse_square (series (GroupLocs.y g)) _ Hy)
    as [vy ->].
  simpl.
  assert (Hzw : ∃ vz, np_average (series zcol)
            (inverse_square
               (map (λ v, fmul v (Fin 2)) (series (GroupLocs.lpx g))))
            = Ok vz).
  { unfold series. rewrite map_map. simpl.
    replace (map (λ l, Fin (l * 2)) (GroupLocs.lpx g))
      with (series (map (λ l, (l * 2)%R) (GroupLocs.lpx g)))
      by (unfold series; by rewrite map_map).
    apply np_average_inverse_square.
    by destruct (GroupLocs.lpx g). }
  destruct Hzw as [vz ->]. simpl. eauto 10.
Qed.


(** ** The propagated precision on finite data *)

Lemma np_fsum_series (l : list R) : np_fsum (series l) = Fin (Rsum l).
Proof.
  unfold np_fsum, Rsum, series. generalize 0%R as a.
  induction l as [|v l IH]; intros a; simpl; [done|]. apply IH.
Qed.

Lemma pd_sum_series (l : list R) : pd_sum (series l) = Fin (Rsum l).
Proof.
  unfold pd_sum. rewrite <- np_fsum_series. f_equal.
  unfold series. induction l as [|v l IH]; [done|].
  simpl. rewrite filter_cons. simpl. by rewrite IH.
Qed.

Lemma zip_with_fmul_series (a b : list R) :
  zip_with fmul (series a) (series b) = series (zip_with Rmult a b).
Proof.
  unfold series. revert b.
  induction a as [|v a IH]; intros [|w b]; simpl; [done..|]. by rewrite IH.
Qed.

Lemma inverse_square_series (lp : list R) :
  Forall (λ l, l ≠ 0%R) lp →
  inverse_square (series lp) = series (map (λ l, (1 / (l * l))%R) lp).
Proof.
  unfold inverse_square, series. intros Hall.
  induction Hall as [|l lp Hl _ IH]; cbn [map]; [done|].
  f_equal; [|exact IH].
  unfold fsquare. cbn [fmul]. apply fdiv_Fin. nra.
Qed.

Lemma error_sums_wtd_finite (x w : list R) :
  Rsum w ≠ 0%R →
  error_sums_wtd (series x) (series w) = Fin (weighted_variance x w).
Proof.
  intros Hw. unfold error_sums_wtd. cbv zeta.
  rewrite zip_with_fmul_series, !pd_sum_series, fdiv_Fin by done.
  fold (weighted_mean x w).
  assert (Hdev : map (λ xi, fsquare (fsub xi (Fin (weighted_mean x w))))
                     (series x)
                 = series (map (λ xi, ((xi - weighted_mean x w)
                                       * (xi - weighted_mean x w))%R) x)).
  { unfold series. rewrite !map_map. apply map_ext. intros xi. done. }
  rewrite Hdev, zip_with_fmul_series, pd_sum_series, fdiv_Fin by done.
  done.
Qed.

Lemma precision_of_variance (e : R) (n : nat) :
  (2 ≤ n)%nat → (0 <= e)%R →
  fsqrt (fdiv (Fin e) (Fin (IZR (Z.of_nat n - 1))))
  = Fin (sqrt (e / (INR n - 1))).
Proof.
  intros Hn He.
  assert (Hn1 : IZR (Z.of_nat n - 1) = (INR n - 1)%R).
  { by rewrite minus_IZR, <- INR_IZR_INZ. }
  assert (Hpos : (1 <= INR n - 1)%R).
  { apply le_INR in Hn. simpl in Hn. lra. }
  rewrite Hn1, fdiv_Fin by lra. apply fsqrt_Fin.
  apply Rmult_le_pos; [done|]. apply Rlt_le, Rinv_0_lt_compat. lra.
Qed.

(** What lines 444-451 compute on a cluster of at least two members:
    the weights handed to [error_sums_wtd] are the precisions [lp_i]
    themselves. *)
Lemma axis_precision_finite (coord lp : list R) (n : nat) :
  Rsum lp ≠ 0%R → (2 ≤ n)%nat → (0 <= weighted_variance coord lp)%R →
  axis_precision coord lp n
  = Fin (sqrt (weighted_variance coord lp / (INR n - 1))).
Proof.
  intros Hw Hn Hvar. unfold axis_precision.
  rewrite error_sums_wtd_finite by done.
  by apply precision_of_variance.
Qed.





(** The same for the precision that the specification words. *)
Lemma spec_axis_precision_finite (coord lp : list R) (n : nat) :
  let w := map (λ l, (1 / (l * l))%R) lp in
  Forall (λ l, l ≠ 0%R) lp → Rsum w ≠ 0%R → (2 ≤ n)%nat →
  (0 <= weighted_variance coord w)%R →
  spec_axis_precision coord lp n
  = Fin (sqrt (weighted_variance coord w / (INR n - 1))).
Proof.
  intros w Hlp Hw Hn Hvar. unfold spec_axis_precision.
  rewrite inverse_square_series by done. fold w.
  rewrite error_sums_wtd_finite by done.
  by apply precision_of_variance.
Qed.

(** ** Concrete tables *)

Lemma two_members_variance :
  weighted_variance [0; 2]%R [1; 2]%R = (8 / 9)%R ∧
  weighted_variance [0; 2]%R (map (λ l, (1 / (l * l))%R) [1; 2]%R)
    = (16 / 25)%R.
Proof.
  unfold weighted_variance, weighted_mean, Rsum.
  cbn [map zip_with foldl]. split; field.
Qed.

(** C1, the code at a cluster of two members at x = 0 and x = 2 with the
    precisions 1 and 2 (the same along y): the precision that
    [cluster_center] returns is [sqrt(8/9)], the value of the formula for
    the weights [w_i = lp_i]; the formula for the weights
    [w_i = 1 / lp_i ** 2] gives [sqrt(16/25) = 4/5]. *)
Theorem precision_weights_at_two_members :
  ∃ t, cluster_center two_members = Ok t ∧
    axis_precision [0; 2]%R [1; 2]%R 2 = Fin (sqrt (8 / 9)) ∧
    Center.lpx t = Fin (sqrt (8 / 9)) ∧
    spec_axis_precision [0; 2]%R [1; 2]%R 2 = Fin (4 / 5) ∧
    sqrt (8 / 9) ≠ (4 / 5)%R.
Proof.
  destruct two_members_variance as [Hcode Hspec].
  assert (Haxis : axis_precision [0; 2]%R [1; 2]%R 2 = Fin (sqrt (8 / 9))).
  { rewrite axis_precision_finite.
    - rewrite Hcode. do 2 f_equal. simpl. field.
    - unfold Rsum. simpl. lra.
    - lia.
    - rewrite Hcode. lra. }
  destruct (cluster_center_3D_Ok two_members [0; 0]%R)
    as (t & Ht & _ & Hlpx & _); [done..|].
  exists t. split_and!; [done | done | | |].
  - rewrite Hlpx. change (len two_members) with 2%nat.
    change (GroupLocs.x two_members) with [0; 2]%R.
    change (GroupLocs.y two_members) with [0; 2]%R.
    change (GroupLocs.lpx two_members) with [1; 2]%R.
    change (GroupLocs.lpy two_members) with [1; 2]%R.
    rewrite Haxis. cbn [fadd]. rewrite fdiv_Fin by lra. f_equal. field.
  - rewrite spec_axis_precision_finite.
    + rewrite Hspec. f_equal. apply sqrt_lem_1; simpl; lra.
    + repeat constructor; lra.
    + unfold Rsum. simpl. lra.
    + lia.
    + rewrite Hspec. lra.
  - intros Heq.
    assert (H : (sqrt (8 / 9) * sqrt (8 / 9) = 8 / 9)%R)
      by (apply sqrt_sqrt; lra).
    rewrite Heq in H. lra.
Qed.


(** ** The burst half of the frame analysis *)

(** C4, the code at the burst cluster: over the whole acquisition all 21
    members fall into one of the 21 bins (bin 10), more than 80 percent,
    yet [np.histogram(frame.values, bins=21)] spans the frames of the
    cluster only, finds one member per bin, and the cluster is kept. *)
Theorem burst_bins_span_cluster_only :
  np_max burst_input_frames = Ok 1000 ∧
  group_frames burst_labels burst_input_frames 0 = burst_frames ∧
  histogram_in 0 (inject_Z 1000) 21 burst_frames
    = replicate 10 0%nat ++ [21%nat] ++ replicate 10 0%nat ∧
  spec_burst_rejects burst_frames 1000 = true ∧
  np_histogram burst_frames 21 = replicate 21 1%nat ∧
  burst_rejects (most_populated_bin burst_frames) (length burst_frames)
    = false ∧
  range_rejects (np_mean burst_frames) 1000 = false ∧
  _frame_analysis burst_frames 1000 = 1 ∧
  frame_analysis burst_labels burst_input_frames = Ok burst_labels.
Proof. vm_compute. by repeat split. Qed.

(** ** The theorems at concrete inputs *)

Lemma local_maximum_iff_witness :
  wf_neighbors (query_ball two_pairs 100) ∧
  ∃ lm, local_maxima (query_ball two_pairs 100) 1 = Ok lm ∧
    length lm = 4%nat.
Proof.
  assert (Hwf : wf_neighbors (query_ball two_pairs 100)).
  { apply (bool_decide_unpack _). vm_compute. exact I. }
  split; [exact Hwf|].
  destruct (local_maximum_iff (query_ball two_pairs 100) 1 Hwf)
    as (lm & Hlm & Hlen & _).
  exists lm. split; [exact Hlm | exact Hlen].
Defined.

Lemma visit_labelled_neighbor_witness :
  [0; 0; -1; 0; 0; -1; -1] !! 1%nat = Some 0 ∧ 0 ≠ -1 ∧
  visit 1 2 [0; 0; -1; 0; 0; -1; -1] 1 = Ok [0; 1; -1; 0; 0; -1; -1] ∧
  ∃ li, [0; 0; -1; 0; 0; -1; -1] !! 2%nat = Some li ∧
    if decide (li = -1)
    then [0; 1; -1; 0; 0; -1; -1] !! 1%nat = Some 1
    else [0; 1; -1; 0; 0; -1; -1] = [0; 0; -1; 0; 0; -1; -1].
Proof.
  split; [reflexivity|]. split; [lia|]. split; [reflexivity|].
  apply (visit_labelled_neighbor 1 2 [0; 0; -1; 0; 0; -1; -1] 1 0);
    [reflexivity | lia | reflexivity].
Defined.

Lemma labels_are_maxima_indices_witness :
  wf_neighbors (query_ball two_pairs 100) ∧
  symmetric_neighbors (query_ball two_pairs 100) ∧
  ∃ lm out, local_maxima (query_ball two_pairs 100) 1 = Ok lm ∧
    label_points (query_ball two_pairs 100) 1 = Ok out ∧
    length out = 4%nat.
Proof.
  assert (Hwf : wf_neighbors (query_ball two_pairs 100)).
  { apply (bool_decide_unpack _). vm_compute. exact I. }
  assert (Hsym : symmetric_neighbors (query_ball two_pairs 100)).
  { apply (bool_decide_unpack _). vm_compute. exact I. }
  split; [exact Hwf|]. split; [exact Hsym|].
  destruct (labels_are_maxima_indices (query_ball two_pairs 100) 1 Hwf Hsym)
    as (lm & out & Hlm & Hout & Hlen & _).
  exists lm, out. split; [exact Hlm|]. split; [exact Hout | exact Hlen].
Defined.

Lemma separated_clusters_exceed_min_locs_witness :
  wf_neighbors (query_ball two_pairs 100) ∧
  Forall NoDup (query_ball two_pairs 100) ∧
  overlapping_maxima_adjacent (query_ball two_pairs 100)
    (maxima_of (query_ball two_pairs 100) 1) ∧
  ∃ out, label_points (query_ball two_pairs 100) 1 = Ok out ∧
    ∀ c, c ∈ out → c ≠ -1 → 1 + 1 ≤ Z.of_nat (cluster_size out c).
Proof.
  assert (Hwf : wf_neighbors (query_ball two_pairs 100)).
  { apply (bool_decide_unpack _). vm_compute. exact I. }
  assert (Hnd : Forall NoDup (query_ball two_pairs 100)).
  { apply (bool_decide_unpack _). vm_compute. exact I. }
  assert (Hadj : overlapping_maxima_adjacent (query_ball two_pairs 100)
                   (maxima_of (query_ball two_pairs 100) 1)).
  { apply (bool_decide_unpack _). vm_compute. exact I. }
  split; [exact Hwf|]. split; [exact Hnd|]. split; [exact Hadj|].
  exact (separated_clusters_exceed_min_locs _ 1 Hwf Hnd Hadj).
Defined.




(** * Further properties *)

(** ** Which points the labeler clusters *)

Section NearMaxima.
Variable neighbors : list (list nat).
Variable lm_idx : list nat.
Hypothesis Hwf : wf_neighbors neighbors.
Hypothesis Hrange : ∀ i, i ∈ lm_idx → (i < length neighbors)%nat.

Lemma labelled_near_maxima_step (pre rest : list (Z * nat)) (c : Z) (i : nat)
    (s : list Z) :
  enumerate lm_idx = pre ++ (c, i) :: rest →
  labelled_near_maxima neighbors pre s →
  ∃ s', process_local_maximum neighbors s (c, i) = Ok s' ∧
    labelled_near_maxima neighbors (pre ++ [(c, i)]) s'.
Proof.
  intros Hxs (Hlen & Hall & Hin).
  assert (Hci : (c, i) ∈ enumerate lm_idx).
  { rewrite Hxs. apply elem_of_app. right. left. }
  apply enumerate_elem in Hci as [Hc Hi].
  pose proof (Hrange i Hi) as HiN.
  destruct (lookup_lt_is_Some_2 neighbors i HiN) as [nb Hnb].
  destruct (wf_neighbors_lookup _ _ _ Hwf Hnb) as [Hself Hnbrange].
  assert (HiS : (i < length s)%nat) by lia.
  destruct (lookup_lt_is_Some_2 s i HiS) as [li Hli].
  assert (Hnbs : ∀ j, j ∈ nb → (j < length s)%nat).
  { intros j Hj. rewrite Hlen. by apply Hnbrange. }
  unfold process_local_maximum.
  rewrite (proj2 (getitem_Ok _ _ _) Hnb). simpl.
  destruct (decide (li = -1)) as [-> | Hne].
  - destruct (fill_any c i (ltac:(lia)) nb s)
      as (s' & Hrun & Hlen' & Hval & Hnew & Hout & _); [done | done | by left |].
    exists s'. split; [done|]. split_and!.
    + congruence.
    + intros c' i' idx' k [Hp|Hp]%elem_of_app Hidx' Hk.
      * destruct (Hall c' i' idx' k Hp Hidx' Hk) as (v & Hv & Hv1).
        destruct (Hval k) as [Hk'|Hk'].
        -- exists v. split; [congruence | done].
        -- exists c. split; [done | lia].
      * apply list_elem_of_singleton in Hp as [= -> ->].
        assert (idx' = nb) as -> by congruence.
        destruct (lookup_lt_is_Some_2 s' k) as [v Hv].
        { rewrite Hlen'. by apply Hnbs. }
        exists v. split; [done|]. intros ->. by apply (Hnew k Hk).
    + intros k v Hv Hv1. destruct (decide (k ∈ nb)) as [Hk|Hk].
      * exists c, i, nb. split_and!; [|done..].
        apply elem_of_app. right. left.
      * rewrite Hout in Hv; [|done|by intros ->].
        destruct (Hin k v Hv Hv1) as (c' & i' & idx' & ? & ? & ?).
        exists c', i', idx'. split_and!; [|done..].
        apply elem_of_app. by left.
  - destruct (fill_labelled c i li nb s) as (s' & Hrun & Hlen' & Ha & Hb);
      [done..|].
    assert (Hkeep : ∀ k v, s !! k = Some v → v ≠ -1 → s' !! k = Some v).
    { intros k v Hv Hv1. rewrite Hb; [done|]. right. congruence. }
    exists s'. split; [done|]. split_and!.
    + congruence.
    + intros c' i' idx' k [Hp|Hp]%elem_of_app Hidx' Hk.
      * destruct (Hall c' i' idx' k Hp Hidx' Hk) as (v & Hv & Hv1).
        exists v. split; [by apply Hkeep | done].
      * apply list_elem_of_singleton in Hp as [= -> ->].
        assert (idx' = nb) as -> by congruence.
        destruct (lookup_lt_is_Some_2 s k (Hnbs k Hk)) as [w Hw].
        destruct (decide (w = -1)) as [-> | Hw1].
        -- exists li. split; [by apply Ha | done].
        -- exists w. split; [by apply Hkeep | done].
    + intros k v Hv Hv1. destruct (decide (k ∈ nb)) as [Hk|Hk].
      * exists c, i, nb. split_and!; [|done..].
        apply elem_of_app. right. left.
      * rewrite Hb in Hv by (by left).
        destruct (Hin k v Hv Hv1) as (c' & i' & idx' & ? & ? & ?).
        exists c', i', idx'. split_and!; [|done..].
        apply elem_of_app. by left.
Qed.

Lemma labelled_near_maxima_final :
  ∃ out, for_each (process_local_maximum neighbors) (enumerate lm_idx)
           (replicate (length neighbors) (-1)) = Ok out ∧
    labelled_near_maxima neighbors (enumerate lm_idx) out.
Proof.
  apply (for_each_prefix_invariant _ (labelled_near_maxima neighbors)).
  - split_and!.
    + by rewrite length_replicate.
    + intros c i idx k []%elem_of_nil.
    + intros k v [-> _]%lookup_replicate Hv. done.
  - intros pre [c i] rest s Hxs Hs. by eapply labelled_near_maxima_step.
Qed.
End NearMaxima.

(** The labeler is total on the neighbour lists of a radius query, and
    its output satisfies the invariant of the propagation loop. *)
Lemma label_points_near_maxima (neighbors : list (list nat)) (min_locs : Z) :
  wf_neighbors neighbors →
  ∃ lm out, local_maxima neighbors min_locs = Ok lm ∧
    label_points neighbors min_locs = Ok out ∧
    labelled_near_maxima neighbors (enumerate (np_where_eq 1 lm)) out.
Proof.
  intros Hwf.
  destruct (local_maxima_marks neighbors min_locs Hwf) as (lm & Hlm & Hlen & _).
  assert (Hrange : ∀ i, i ∈ np_where_eq 1 lm → (i < length neighbors)%nat).
  { intros i Hi%np_where_eq_elem%lookup_lt_Some. lia. }
  destruct (labelled_near_maxima_final neighbors (np_where_eq 1 lm) Hwf Hrange)
    as (out & Hout & Hinv).
  exists lm, out. split; [done|]. split; [|done].
  unfold label_points. by rewrite Hlm.
Qed.

(** What the invariant says of a point, once all local maxima are done. *)
Lemma labelled_near_maxima_point (neighbors : list (list nat))
    (lm out : list Z) (k : nat) :
  labelled_near_maxima neighbors (enumerate (np_where_eq 1 lm)) out →
  (∃ v, out !! k = Some v ∧ v ≠ -1) ↔
  (∃ i idx, lm !! i = Some 1 ∧ neighbors !! i = Some idx ∧ k ∈ idx).
Proof.
  intros (Hlen & Hall & Hin). split.
  - intros (v & Hv & Hv1).
    destruct (Hin k v Hv Hv1) as (c & i & idx & Hci & Hidx & Hk).
    apply enumerate_elem in Hci as [_ Hi%np_where_eq_elem]. eauto.
  - intros (i & idx & Hi & Hidx & Hk).
    apply np_where_eq_elem, list_elem_of_lookup in Hi as [p Hp].
    apply (Hall (Z.of_nat p) i idx k); [|done..].
    apply list_elem_of_lookup. exists p. by apply enumerate_lookup.
Qed.

(** X1: on the neighbour lists of a radius query the labeler returns a
    label for every point, and a point is clustered (its label is not
    [-1]) exactly when it is within the radius of some local maximum;
    a point near no local maximum stays [-1]. *)
Theorem clustered_iff_near_local_maximum (neighbors : list (list nat))
    (min_locs : Z) :
  wf_neighbors neighbors →
  ∃ lm out, local_maxima neighbors min_locs = Ok lm ∧
    label_points neighbors min_locs = Ok out ∧
    length out = length neighbors ∧
    ∀ k, (∃ v, out !! k = Some v ∧ v ≠ -1) ↔
         (∃ i idx, lm !! i = Some 1 ∧ neighbors !! i = Some idx ∧ k ∈ idx).
Proof.
  intros Hwf.
  destruct (label_points_near_maxima neighbors min_locs Hwf)
    as (lm & out & Hlm & Hout & Hinv).
  exists lm, out. split; [done|]. split; [done|].
  split; [by destruct Hinv|].
  intros k. by apply labelled_near_maxima_point.
Qed.

(** Some point has the most neighbours of all. *)
Lemma longest_neighbor_list (neighbors : list (list nat)) :
  neighbors ≠ [] →
  ∃ i idx, neighbors !! i = Some idx ∧
    ∀ j idx', neighbors !! j = Some idx' → (length idx' ≤ length idx)%nat.
Proof.
  induction neighbors as [|nb l IH]; [done|]. intros _.
  destruct l as [|nb' l].
  - exists 0%nat, nb. split; [done|].
    intros [|j] idx' Hj; simpl in Hj; [by injection Hj as <- | done].
  - destruct IH as (i & idx & Hi & Hmax); [done|].
    destruct (decide (length idx ≤ length nb)%nat) as [Hle|Hgt].
    + exists 0%nat, nb. split; [done|].
      intros [|j] idx' Hj; simpl in Hj.
      * by injection Hj as <-.
      * specialize (Hmax j idx' Hj). lia.
    + exists (S i), idx. split; [done|].
      intros [|j] idx' Hj; simpl in Hj.
      * injection Hj as <-. lia.
      * by apply (Hmax j).
Qed.

(** X2: the labeler forms at least one cluster exactly when some point
    has more than [min_locs] neighbours (itself included); otherwise
    every label is [-1]. *)
Theorem some_cluster_iff_dense_point (neighbors : list (list nat))
    (min_locs : Z) :
  wf_neighbors neighbors →
  ∃ out, label_points neighbors min_locs = Ok out ∧
    ((∃ k v, out !! k = Some v ∧ v ≠ -1) ↔
     (∃ i idx, neighbors !! i = Some idx ∧ Z.of_nat (length idx) > min_locs)).
Proof.
  intros Hwf.
  destruct (local_maxima_marks neighbors min_locs Hwf)
    as (lm & Hlm & Hlen & Hmark).
  assert (Hrange : ∀ i, i ∈ np_where_eq 1 lm → (i < length neighbors)%nat).
  { intros i Hi%np_where_eq_elem%lookup_lt_Some. lia. }
  destruct (labelled_near_maxima_final neighbors (np_where_eq 1 lm) Hwf Hrange)
    as (out & Hout & Hlen' & Hall & Hin).
  exists out. split.
  { unfold label_points. by rewrite Hlm. }
  split.
  - intros (k & v & Hv & Hv1).
    destruct (Hin k v Hv Hv1) as (c & i & idx & Hci & Hidx & Hk).
    apply enumerate_elem in Hci as [_ Hi%np_where_eq_elem].
    exists i, idx. split; [done|].
    by eapply local_maximum_count.
  - intros (i & idx & Hidx & Hn).
    destruct (longest_neighbor_list neighbors) as (m & idxm & Hm & Hmax).
    { intros ->. by rewrite lookup_nil in Hidx. }
    (* the point with the most neighbours is a local maximum *)
    destruct (wf_neighbors_lookup _ _ _ Hwf Hm) as [Hself _].
    destruct (is_local_maximum_spec neighbors min_locs Hwf m idxm Hm)
      as (b & Hb & Hspec).
    assert (b = true) as ->.
    { apply Hspec. split.
      - specialize (Hmax i idx Hidx). lia.
      - split; [by exists m, idxm|]. intros j nb _ Hj. by apply (Hmax j). }
    assert (Hlmm : lm !! m = Some 1).
    { rewrite (Hmark m (lookup_lt_Some _ _ _ Hm)). by rewrite Hb. }
    apply np_where_eq_elem, list_elem_of_lookup in Hlmm as [p Hp].
    destruct (Hall (Z.of_nat p) m idxm m) as (v & Hv & Hv1); [|done..|eauto].
    apply list_elem_of_lookup. exists p. by apply enumerate_lookup.
Qed.

(** ** What frame analysis does to the labels *)

Lemma frame_analysis_Ok_inv (labels frame out : list Z) :
  frame_analysis labels frame = Ok out →
  length frame = length labels ∧
  ∃ n_frames, np_max frame = Ok n_frames ∧
    out = map (λ l, if decide (l ∈ discard_ids labels frame n_frames)
                    then -1 else l) labels.
Proof.
  unfold frame_analysis. case_decide as Hlen; [discriminate|].
  intros (n & Hn & [= <-])%bind_Ok. split; [|eauto].
  destruct (decide (length frame = length labels)); [done|]. by destruct Hlen.
Qed.

Lemma elem_of_group_frames (labels frame : list Z) (c f : Z) :
  f ∈ group_frames labels frame c ↔
  ∃ k, labels !! k = Some c ∧ frame !! k = Some f.
Proof.
  unfold group_frames. revert frame.
  induction labels as [|l labels IH]; intros frame.
  - simpl. rewrite elem_of_nil. split; [done|]. by intros (k & Hk & _).
  - destruct frame as [|x frame].
    { simpl. rewrite elem_of_nil. split; [done|]. by intros (k & _ & Hk). }
    simpl. rewrite filter_cons. simpl.
    destruct (decide (l = c)) as [-> | Hlc]; simpl.
    + rewrite elem_of_cons, IH. split.
      * intros [-> | (k & Hk & Hf)]; [by exists 0%nat | by exists (S k)].
      * intros ([|k] & Hk & Hf); simpl in *.
        -- left. congruence.
        -- right. eauto.
    + rewrite IH. split.
      * intros (k & Hk & Hf). by exists (S k).
      * intros ([|k] & Hk & Hf); simpl in *; [congruence | eauto].
Qed.

(** X4: frame analysis keeps the length and decides cluster by cluster:
    each point keeps its label or becomes [-1], two points with the same
    label fare alike, and an unclustered point stays unclustered. *)
Theorem frame_analysis_whole_clusters (labels frame out : list Z) :
  frame_analysis labels frame = Ok out →
  length out = length labels ∧
  ∀ k l, labels !! k = Some l →
    (out !! k = Some l ∨ out !! k = Some (-1)) ∧
    (l = -1 → out !! k = Some (-1)) ∧
    (∀ k', labels !! k' = Some l → out !! k' = out !! k).
Proof.
  intros (Hlen & n & Hn & ->)%frame_analysis_Ok_inv.
  split; [by rewrite length_map|]. intros k l Hk.
  change (map ?f labels) with (f <$> labels).
  rewrite list_lookup_fmap, Hk. simpl. split_and!.
  - case_decide; [by right | by left].
  - intros ->. by case_decide.
  - intros k' Hk'. by rewrite list_lookup_fmap, Hk'.
Qed.


(** ** The histogram of a group *)

Lemma foldl_min_spec (l : list Z) (x : Z) :
  foldl Z.min x l ∈ x :: l ∧ ∀ y, y ∈ x :: l → foldl Z.min x l ≤ y.
Proof.
  revert x. induction l as [|y l IH]; intros x; simpl.
  - split; [left|]. intros z ->%list_elem_of_singleton. lia.
  - destruct (IH (Z.min x y)) as [Hin Hle]. split.
    + apply elem_of_cons in Hin as [Heq|Hin]; [|right; by right].
      rewrite Heq. destruct (Z.min_spec x y) as [[_ ->]|[_ ->]];
        [left | right; left].
    + intros z Hz.
      assert (foldl Z.min (Z.min x y) l ≤ Z.min x y) by (apply Hle; left).
      apply elem_of_cons in Hz as [-> | Hz]; [lia|].
      apply elem_of_cons in Hz as [-> | Hz]; [lia|].
      apply Hle. by right.
Qed.

Lemma foldl_max_spec (l : list Z) (x : Z) :
  foldl Z.max x l ∈ x :: l ∧ ∀ y, y ∈ x :: l → y ≤ foldl Z.max x l.
Proof.
  destruct (np_max_spec (x :: l) (foldl Z.max x l)) as [H _]. by apply H.
Qed.

Lemma foldr_max_le (l : list nat) (m : nat) :
  Forall (λ x, x ≤ m)%nat l → (foldr Nat.max 0 l ≤ m)%nat.
Proof. induction 1 as [|x l Hx _ IH]; simpl; lia. Qed.

Lemma foldr_max_ge (l : list nat) (x : nat) :
  x ∈ l → (x ≤ foldr Nat.max 0 l)%nat.
Proof.
  induction l as [|y l IH]; [by intros []%elem_of_nil|].
  intros [-> | Hx]%elem_of_cons; simpl; [lia|]. specialize (IH Hx). lia.
Qed.

Lemma filter_all {A} (P : A → Prop) `{∀ x, Decision (P x)} (l : list A) :
  Forall P l → filter P l = l.
Proof.
  induction 1 as [|x l Hx _ IH]; [done|].
  rewrite filter_cons, decide_True by done. by f_equal.
Qed.

(** When every value lies in the range, the histogram counts, bin by bin,
    the values of the whole group. *)
Lemma histogram_in_all (first last : Q) (bins : nat) (a : list Z) :
  Forall (λ v, in_range first last v = true) a →
  histogram_in first last bins a
  = map (λ b, length (filter (λ v, bin_of first last bins v = Z.of_nat b) a))
        (seq 0 bins).
Proof.
  intros Hall. unfold histogram_in. cbv zeta.
  by rewrite filter_all.
Qed.

(** A group whose frames are all equal falls into one bin. *)
Lemma most_populated_bin_constant (g : list Z) (f : Z) :
  g ≠ [] → Forall (λ v, v = f) g →
  most_populated_bin g = length g.
Proof.
  intros Hne Hall. unfold most_populated_bin, np_histogram. cbv zeta.
  assert (Hrange : data_range g
            = ((inject_Z f - (1 # 2))%Q, (inject_Z f + (1 # 2))%Q)).
  { destruct g as [|x a]; [done|]. unfold data_range.
    apply Forall_cons in Hall as [-> Hall].
    destruct (foldl_min_spec a f) as [Hmin _].
    destruct (foldl_max_spec a f) as [Hmax _].
    assert (Hf : ∀ v, v ∈ f :: a → v = f).
    { intros v [-> | Hv]%elem_of_cons; [done|].
      rewrite Forall_forall in Hall. by apply Hall. }
    rewrite (Hf _ Hmin), (Hf _ Hmax). by rewrite decide_True. }
  rewrite Hrange.
  assert (Hin : ∀ v, v ∈ g →
            in_range (inject_Z f - (1 # 2)) (inject_Z f + (1 # 2)) v = true ∧
            bin_of (inject_Z f - (1 # 2)) (inject_Z f + (1 # 2)) 21 v = 10).
  { intros v Hv. rewrite Forall_forall in Hall. rewrite (Hall v Hv). split.
    - unfold in_range. apply andb_true_intro.
      split; apply Qle_bool_iff; Lqa.lra.
    - unfold bin_of.
      destruct (Qeq_bool _ _) eqn:Heq.
      { apply Qeq_bool_iff in Heq. exfalso. Lqa.lra. }
      assert (E : ((inject_Z f - (inject_Z f - (1 # 2)))
                   * inject_Z (Z.of_nat 21)
                   / (inject_Z f + (1 # 2) - (inject_Z f - (1 # 2)))
                   == 21 # 2)%Q).
      { field. intros H. Lqa.lra. }
      by rewrite E. }
  rewrite histogram_in_all.
  2:{ apply Forall_forall. intros v Hv. by apply Hin. }
  apply Nat.le_antisymm.
  - apply foldr_max_le, Forall_forall. intros n (b & -> & _)%list_elem_of_fmap.
    apply length_filter.
  - apply foldr_max_ge, list_elem_of_fmap. exists 10%nat. split.
    + rewrite filter_all; [done|]. apply Forall_forall. intros v Hv.
      by apply Hin.
    + apply elem_of_seq. lia.
Qed.

Lemma burst_rejects_all (n : nat) : (0 < n)%nat → burst_rejects n n = true.
Proof.
  intros Hn. unfold burst_rejects, Qlt_bool.
  apply negb_true_iff, not_true_iff_false. rewrite Qle_bool_iff.
  intros H. unfold Qle, Qmult, inject_Z in H. simpl in H. lia.
Qed.

(** A non-empty group in a single frame fails the burst half. *)
Lemma _frame_analysis_constant (g : list Z) (f n_frames : Z) :
  g ≠ [] → Forall (λ v, v = f) g → _frame_analysis g n_frames = 0.
Proof.
  intros Hne Hall. unfold _frame_analysis.
  destruct g as [|x a] eqn:Hg; [done|]. rewrite <- Hg in *.
  rewrite (most_populated_bin_constant g f) by done.
  rewrite burst_rejects_all; [by rewrite orb_true_r|].
  rewrite Hg. simpl. lia.
Qed.

(** The members of a group that fails are all relabelled. *)
Lemma frame_analysis_discards (labels frame out : list Z) (n_frames c : Z) :
  frame_analysis labels frame = Ok out →
  np_max frame = Ok n_frames →
  _frame_analysis (group_frames labels frame c) n_frames = 0 →
  ∀ k, labels !! k = Some c → out !! k = Some (-1).
Proof.
  intros (Hlen & n & Hn & ->)%frame_analysis_Ok_inv Hmax Hfail k Hk.
  assert (n = n_frames) as -> by congruence.
  change (map ?f labels) with (f <$> labels).
  rewrite list_lookup_fmap, Hk. simpl.
  rewrite decide_True; [done|]. apply elem_of_discard_ids. split; [|done].
  apply list_elem_of_lookup. eauto.
Qed.

(** X6: a cluster whose members all lie in the same frame, a cluster of a
    single member among them, never survives frame analysis. *)
Theorem single_frame_cluster_discarded (labels frame out : list Z) (c f : Z) :
  frame_analysis labels frame = Ok out →
  (∀ k, labels !! k = Some c → frame !! k = Some f) →
  ∀ k, labels !! k = Some c → out !! k = Some (-1).
Proof.
  intros Hfa Hsame k Hk.
  destruct (frame_analysis_Ok_inv _ _ _ Hfa) as (Hlen & n & Hn & _).
  apply (frame_analysis_discards labels frame out n c); [done..| |done].
  apply (_frame_analysis_constant _ f).
  - apply group_frames_nonempty; [done|]. apply list_elem_of_lookup. eauto.
  - apply Forall_forall. intros v (k' & Hk' & Hv)%elem_of_group_frames.
    specialize (Hsame k' Hk'). congruence.
Qed.

Lemma np_sum_scaled_le (g : list Z) (a b : Z) :
  Forall (λ f, a * f ≤ b) g → a * np_sum g ≤ b * Z.of_nat (length g).
Proof.
  induction 1 as [|f g Hf _ IH]; [simpl; lia|].
  change (np_sum (f :: g)) with (f + np_sum g). rewrite length_cons. lia.
Qed.

Lemma np_sum_scaled_ge (g : list Z) (a b : Z) :
  Forall (λ f, b ≤ a * f) g → b * Z.of_nat (length g) ≤ a * np_sum g.
Proof.
  induction 1 as [|f g Hf _ IH]; [simpl; lia|].
  change (np_sum (f :: g)) with (f + np_sum g). rewrite length_cons. lia.
Qed.

(** The mean of a non-empty group against a fraction of [n_frames]. *)
Lemma np_mean_lt_fraction (g : list Z) (p : Z) (n_frames : Z) :
  g ≠ [] →
  10 * np_sum g < p * n_frames * Z.of_nat (length g) →
  Qlt_bool (np_mean g) ((p # 10) * inject_Z n_frames) = true.
Proof.
  intros Hne Hlt. unfold Qlt_bool. apply negb_true_iff, not_true_iff_false.
  rewrite Qle_bool_iff. apply Qlt_not_le. unfold np_mean.
  apply Qlt_shift_div_r.
  - change 0%Q with (inject_Z 0). rewrite <- Zlt_Qlt.
    destruct g; [done|]. rewrite length_cons. lia.
  - unfold Qlt, Qmult, inject_Z. simpl. lia.
Qed.

Lemma np_mean_gt_fraction (g : list Z) (p : Z) (n_frames : Z) :
  g ≠ [] →
  p * n_frames * Z.of_nat (length g) < 10 * np_sum g →
  Qlt_bool ((p # 10) * inject_Z n_frames) (np_mean g) = true.
Proof.
  intros Hne Hlt. unfold Qlt_bool. apply negb_true_iff, not_true_iff_false.
  rewrite Qle_bool_iff. apply Qlt_not_le. unfold np_mean.
  apply Qlt_shift_div_l.
  - change 0%Q with (inject_Z 0). rewrite <- Zlt_Qlt.
    destruct g; [done|]. rewrite length_cons. lia.
  - unfold Qlt, Qmult, inject_Z. simpl. lia.
Qed.

(** X7: a cluster whose members all lie in the first fifth of the
    acquisition ([5 f < n_frames] for every member frame [f]), or all in
    the last fifth ([5 f > 4 n_frames]), does not survive frame analysis,
    however its members are spread inside that fifth. *)
Theorem cluster_outside_window_discarded
    (labels frame out : list Z) (n_frames c : Z) :
  frame_analysis labels frame = Ok out →
  np_max frame = Ok n_frames →
  (∀ k f, labels !! k = Some c → frame !! k = Some f → 5 * f < n_frames) ∨
  (∀ k f, labels !! k = Some c → frame !! k = Some f → 4 * n_frames < 5 * f) →
  ∀ k, labels !! k = Some c → out !! k = Some (-1).
Proof.
  intros Hfa Hmax Hside k Hk.
  destruct (frame_analysis_Ok_inv _ _ _ Hfa) as (Hlen & _).
  apply (frame_analysis_discards labels frame out n_frames c); [done..| |done].
  assert (Hne : group_frames labels frame c ≠ []).
  { apply group_frames_nonempty; [done|]. apply list_elem_of_lookup. eauto. }
  assert (Hpos : (0 < length (group_frames labels frame c))%nat).
  { destruct (group_frames labels frame c); [done|]. simpl. lia. }
  unfold _frame_analysis.
  destruct (group_frames labels frame c) as [|x a] eqn:Hg; [done|].
  rewrite <- Hg in *.
  assert (Hrej : range_rejects (np_mean (group_frames labels frame c))
                   n_frames = true); [|by rewrite Hrej].
  unfold range_rejects. apply orb_true_iff.
  destruct Hside as [Hearly|Hlate]; [left | right].
  - apply np_mean_lt_fraction; [done|].
    assert (5 * np_sum (group_frames labels frame c)
            ≤ (n_frames - 1) * Z.of_nat (length (group_frames labels frame c))).
    { apply np_sum_scaled_le, Forall_forall.
      intros f (k' & Hk' & Hf)%elem_of_group_frames.
      specialize (Hearly k' f Hk' Hf). lia. }
    nia.
  - apply np_mean_gt_fraction; [done|].
    assert ((4 * n_frames + 1) * Z.of_nat (length (group_frames labels frame c))
            ≤ 5 * np_sum (group_frames labels frame c)).
    { apply np_sum_scaled_ge, Forall_forall.
      intros f (k' & Hk' & Hf)%elem_of_group_frames.
      specialize (Hlate k' f Hk' Hf). lia. }
    nia.
Qed.





(** ** The centre of a cluster *)






















(** ** The whole of [_cluster] *)

Lemma frame_analysis_Ok_iff (labels frame : list Z) :
  (∃ out, frame_analysis labels frame = Ok out) ↔
  length frame = length labels ∧ frame ≠ [].
Proof.
  unfold frame_analysis. split.
  - intros [out Hout]. case_decide as Hlen; [discriminate|].
    apply bind_Ok in Hout as (n & Hn & _). split.
    + destruct (decide (length frame = length labels)); [done|].
      by destruct Hlen.
    + intros ->. discriminate.
  - intros [Hlen Hne]. rewrite decide_False by (intros H; by apply H).
    destruct frame as [|x frame]; [done|]. simpl. eauto.
Qed.

Lemma frame_analysis_Err (labels frame : list Z) (e : exn) :
  frame_analysis labels frame = Err e → e = ValueError.
Proof.
  unfold frame_analysis. case_decide; [by intros [= <-]|].
  destruct frame as [|x frame]; simpl; [by intros [= <-] | discriminate].
Qed.

Lemma frame_analysis_length (labels frame out : list Z) :
  frame_analysis labels frame = Ok out → length out = length labels.
Proof.
  intros (_ & n & _ & ->)%frame_analysis_Ok_inv. by rewrite length_map.
Qed.

(** X12: whatever frames are given, [_cluster] returns what the labeler
    found with some clusters dissolved: a point that comes out clustered
    carries the label that the labeler gave it and lies within the radius
    of a local maximum. Frame analysis adds no point to any cluster. *)
Theorem _cluster_clustered_near_local_maximum {Points Radius : Type}
    (query_ball_tree : Points → Radius → list (list nat))
    (X : Points) (radius : Radius) (min_locs : Z)
    (frame : option (list Z)) (out : list Z) :
  wf_neighbors (query_ball_tree X radius) →
  _cluster query_ball_tree X radius min_locs frame = Ok out →
  ∃ lm out0,
    local_maxima (query_ball_tree X radius) min_locs = Ok lm ∧
    _cluster query_ball_tree X radius min_locs None = Ok out0 ∧
    length out = length out0 ∧
    ∀ k v, out !! k = Some v → v ≠ -1 →
      out0 !! k = Some v ∧
      ∃ i idx, lm !! i = Some 1 ∧
        query_ball_tree X radius !! i = Some idx ∧ k ∈ idx.
Proof.
  intros Hwf Hout.
  destruct (label_points_near_maxima _ min_locs Hwf)
    as (lm & out0 & Hlm & Hout0 & Hinv).
  pose proof (λ k, labelled_near_maxima_point _ lm out0 k Hinv) as Hiff.
  destruct Hinv as (Hlen & _).
  exists lm, out0. split; [done|].
  rewrite _cluster_without_frames. split; [done|].
  unfold _cluster in Hout. cbv zeta in Hout. rewrite Hout0 in Hout.
  cbn [bind] in Hout. destruct frame as [f|].
  - pose proof (frame_analysis_length _ _ _ Hout) as Hlen'.
    split; [done|]. intros k v Hv Hv1.
    apply frame_analysis_Ok_inv in Hout as (_ & n & _ & ->).
    change (map ?g out0) with (g <$> out0) in Hv.
    rewrite list_lookup_fmap in Hv.
    destruct (out0 !! k) as [l|] eqn:Hl; [|done]. simpl in Hv.
    case_decide; [congruence|]. injection Hv as ->.
    split; [done|]. apply Hiff. eauto.
  - injection Hout as ->. split; [done|]. intros k v Hv Hv1.
    split; [done|]. apply Hiff. eauto.
Qed.

(** ** The entry points *)

Lemma np_stack_T_Err {A : Type} (arrays : list (list A)) (e : exn) :
  np_stack_T arrays = Err e → e = ValueError.
Proof.
  unfold np_stack_T. destruct arrays as [|a rest]; [by intros [= <-]|].
  case_decide; [done | by intros [= <-]].
Qed.

Lemma np_stack_T_Ok {A : Type} (a : list A) (rest : list (list A)) :
  (∃ X, np_stack_T (a :: rest) = Ok X) ↔
  Forall (λ b, length b = length a) rest.
Proof.
  unfold np_stack_T. case_decide; split; try done; [eauto|]. by intros [X ?].
Qed.

Lemma np_stack_T_length {A : Type} (a : list A) (rest X : list (list A)) :
  np_stack_T (a :: rest) = Ok X → length X = length a.
Proof.
  unfold np_stack_T. case_decide; [|done]. intros [= <-].
  by rewrite length_map, length_seq.
Qed.

(** What is assumed of the tree for the radius in use: it answers with
    one list per point, and the lists are those of a radius query. *)
Lemma _cluster_Ok_iff
    (query_ball_tree : list (list npfloat) → npfloat → list (list nat))
    (X : list (list npfloat)) (radius : npfloat)
    (min_locs : Z) (frame : option (list Z)) :
  length (query_ball_tree X radius) = length X →
  wf_neighbors (query_ball_tree X radius) →
  ((∃ out, _cluster query_ball_tree X radius min_locs frame = Ok out) ↔
   (∀ f, frame = Some f → length f = length X ∧ f ≠ [])) ∧
  (∀ e, _cluster query_ball_tree X radius min_locs frame = Err e →
        e = ValueError) ∧
  (∀ out, _cluster query_ball_tree X radius min_locs frame = Ok out →
          length out = length X).
Proof.
  intros Hlen Hwf.
  destruct (label_points_near_maxima _ min_locs Hwf)
    as (lm & out0 & _ & Hout0 & Hlen0 & _).
  unfold _cluster. cbv zeta. rewrite Hout0. cbn [bind].
  destruct frame as [f|].
  - split_and!.
    + rewrite frame_analysis_Ok_iff. split.
      * intros [H1 H2] f' [= <-]. split; [congruence | done].
      * intros H. destruct (H f eq_refl). split; [congruence | done].
    + apply frame_analysis_Err.
    + intros out Hout%frame_analysis_length. congruence.
  - split_and!.
    + split; [done | eauto].
    + done.
    + intros out [= <-]. congruence.
Qed.

(** Stacking coordinate arrays and clustering the rows, as [cluster_2D]
    and [cluster_3D] both do. *)
Lemma stacked_cluster_outcome
    (query_ball_tree : list (list npfloat) → npfloat → list (list nat))
    (a : list npfloat) (rest : list (list npfloat)) (frame : list Z)
    (radius : npfloat) (min_locs : Z) (fa : bool) :
  (∀ X, length (query_ball_tree X radius) = length X ∧
        wf_neighbors (query_ball_tree X radius)) →
  let run :=
    X <- np_stack_T (a :: rest) ;;
    _cluster query_ball_tree X radius min_locs
      (if negb fa then None else Some frame) in
  ((∃ out, run = Ok out) ↔
   Forall (λ b, length b = length a) rest ∧
   (fa = true → length frame = length a ∧ frame ≠ [])) ∧
  (∀ e, run = Err e → e = ValueError) ∧
  (∀ out, run = Ok out → length out = length a).
Proof.
  intros Hq run. unfold run. clear run.
  destruct (np_stack_T (a :: rest)) as [X|e0] eqn:HX; cbn [bind].
  - pose proof (np_stack_T_length _ _ _ HX) as HlenX.
    assert (Hrest : Forall (λ b, length b = length a) rest).
    { apply np_stack_T_Ok. eauto. }
    destruct (Hq X) as [HqL HqW].
    destruct (_cluster_Ok_iff query_ball_tree X radius min_locs
                (if negb fa then None else Some frame) HqL HqW)
      as (Hiff & Herr & Hlen).
    split_and!.
    + rewrite Hiff. split.
      * intros H. split; [done|]. intros ->. simpl in H.
        destruct (H frame eq_refl). split; [congruence | done].
      * intros [_ H] f. destruct fa; simpl; [|done].
        intros [= <-]. destruct (H eq_refl). split; [congruence | done].
    + done.
    + intros out Hout%Hlen. congruence.
  - split_and!.
    + split; [by intros [out ?]|]. intros [Hrest _].
      apply np_stack_T_Ok in Hrest as [X HX']. congruence.
    + intros e [= <-]. by apply np_stack_T_Err in HX.
    + done.
Qed.

(** X13: when the tree answers the radius query properly (one list per
    point, holding valid indices and the point itself), [cluster_2D]
    raises exactly when [x] and [y] differ in length or, with frame
    analysis switched on, when [frame] has another length than [x] or
    there is no point; the exception is a [ValueError]. With frame
    analysis switched off [frame] is not looked at. A result has one label
    per point. *)
Theorem cluster_2D_raises
    (query_ball_tree : list (list npfloat) → npfloat → list (list nat))
    (x y : list npfloat) (frame : list Z)
    (radius : npfloat) (min_locs : Z) (fa : bool) :
  (∀ X, length (query_ball_tree X radius) = length X ∧
        wf_neighbors (query_ball_tree X radius)) →
  ((∃ out, cluster_2D query_ball_tree x y frame radius min_locs fa = Ok out) ↔
   length y = length x ∧
   (fa = true → length frame = length x ∧ frame ≠ [])) ∧
  (∀ e, cluster_2D query_ball_tree x y frame radius min_locs fa = Err e →
        e = ValueError) ∧
  (∀ out, cluster_2D query_ball_tree x y frame radius min_locs fa = Ok out →
          length out = length x).
Proof.
  intros Hq. unfold cluster_2D.
  destruct (stacked_cluster_outcome query_ball_tree x [y] frame radius
              min_locs fa Hq) as (Hiff & Herr & Hlen).
  split_and!; [|done..]. rewrite Hiff. by rewrite Forall_singleton.
Qed.


(** X15: [cluster] on a table of [k] localizations, with such a tree,
    raises exactly when the parameter tuple has the length of the other
    dimensionality (five entries for 3D data, six for 2D data) or when
    frame analysis is asked for on an empty table, and then with a
    [ValueError]; otherwise it returns [k] labels. *)
Theorem cluster_raises
    (query_ball_tree : list (list npfloat) → npfloat → list (list nat))
    (locs : GroupLocs.t) (p : params) (k : nat) :
  (∀ X, length (query_ball_tree X (params_radius p)) = length X ∧
        wf_neighbors (query_ball_tree X (params_radius p))) →
  rows locs k →
  ((∃ out, cluster query_ball_tree locs p = Ok out) ↔
   match GroupLocs.z locs, p with
   | Some _, Params6 _ _ _ fa | None, Params5 _ _ fa =>
       fa = true → k ≠ 0%nat
   | _, _ => False
   end) ∧
  (∀ e, cluster query_ball_tree locs p = Err e → e = ValueError) ∧
  (∀ out, cluster query_ball_tree locs p = Ok out → length out = k).
Proof.
  intros Hq (Hf & Hx & Hy & Hz & _). unfold cluster.
  assert (Hne : GroupLocs.frame locs ≠ [] ↔ k ≠ 0%nat).
  { rewrite <- Hf. by destruct (GroupLocs.frame locs). }
  destruct (GroupLocs.z locs) as [zcol|] eqn:Hzcol;
    destruct p as [radius min_locs fa|radius_xy radius_z min_locs fa].
  - split_and!; [|by intros e [= <-]|done]. split; [by intros [? ?] | done].
  - specialize (Hz zcol eq_refl).
    unfold cluster_3D. cbv zeta.
    destruct (stacked_cluster_outcome query_ball_tree
                (series (GroupLocs.x locs))
                [series (GroupLocs.y locs);
                 map (λ v, fdiv (fmul v radius_xy) radius_z) (series zcol)]
                (GroupLocs.frame locs) radius_xy min_locs fa Hq)
      as (Hiff & Herr & Hlen).
    rewrite Forall_cons, Forall_singleton in Hiff.
    unfold series in *. rewrite !length_map in *.
    split_and!.
    + rewrite Hiff. split.
      * intros (_ & H) Hfa. apply Hne. by apply H.
      * intros H. split; [split; congruence|]. intros Hfa.
        split; [congruence|]. apply Hne. by apply H.
    + done.
    + intros out Hout%Hlen. congruence.
  - unfold cluster_2D.
    destruct (stacked_cluster_outcome query_ball_tree
                (series (GroupLocs.x locs))
                [series (GroupLocs.y locs)]
                (GroupLocs.frame locs) radius min_locs fa Hq)
      as (Hiff & Herr & Hlen).
    rewrite Forall_singleton in Hiff.
    unfold series in *. rewrite !length_map in *.
    split_and!.
    + rewrite Hiff. split.
      * intros (_ & H) Hfa. apply Hne. by apply H.
      * intros H. split; [congruence|]. intros Hfa.
        split; [congruence|]. apply Hne. by apply H.
    + done.
    + intros out Hout%Hlen. congruence.
  - split_and!; [|by intros e [= <-]|done]. split; [by intros [? ?] | done].
Qed.

(** ** The centres of all clusters *)









(** ** Edge cases of the centre *)












(** ** The further properties at concrete inputs *)

Lemma all_within_radius_wf (X : list (list npfloat)) (radius : npfloat) :
  length (all_within_radius X radius) = length X ∧
  wf_neighbors (all_within_radius X radius).
Proof.
  unfold all_within_radius. split; [by rewrite length_map|].
  unfold wf_neighbors. apply Forall_lookup. intros i [j nb].
  rewrite list_lookup_imap, list_lookup_fmap.
  destruct (X !! i) as [row|] eqn:Hrow; [|done]. intros [= <- <-].
  apply lookup_lt_Some in Hrow. simpl. split.
  - apply elem_of_seq. lia.
  - apply Forall_forall. intros k Hk%elem_of_seq.
    rewrite length_map. lia.
Qed.

Lemma clustered_iff_near_local_maximum_witness :
  wf_neighbors (query_ball two_pairs 100) ∧
  ∃ lm out, local_maxima (query_ball two_pairs 100) 1 = Ok lm ∧
    label_points (query_ball two_pairs 100) 1 = Ok out ∧
    length out = length (query_ball two_pairs 100) ∧
    ∀ k, (∃ v, out !! k = Some v ∧ v ≠ -1) ↔
         (∃ i idx, lm !! i = Some 1 ∧
            query_ball two_pairs 100 !! i = Some idx ∧ k ∈ idx).
Proof.
  assert (Hwf : wf_neighbors (query_ball two_pairs 100)).
  { apply (bool_decide_unpack _). vm_compute. exact I. }
  split; [exact Hwf|].
  exact (clustered_iff_near_local_maximum _ 1 Hwf).
Defined.

Lemma some_cluster_iff_dense_point_witness :
  wf_neighbors (query_ball two_pairs 100) ∧
  ∃ out, label_points (query_ball two_pairs 100) 1 = Ok out ∧
    ((∃ k v, out !! k = Some v ∧ v ≠ -1) ↔
     (∃ i idx, query_ball two_pairs 100 !! i = Some idx ∧
        Z.of_nat (length idx) > 1)).
Proof.
  assert (Hwf : wf_neighbors (query_ball two_pairs 100)).
  { apply (bool_decide_unpack _). vm_compute. exact I. }
  split; [exact Hwf|].
  exact (some_cluster_iff_dense_point _ 1 Hwf).
Defined.

Lemma frame_analysis_whole_clusters_witness :
  frame_analysis boundary_labels boundary_frames = Ok boundary_labels ∧
  length boundary_labels = length boundary_labels ∧
  ∀ k l, boundary_labels !! k = Some l →
    (boundary_labels !! k = Some l ∨ boundary_labels !! k = Some (-1)) ∧
    (l = -1 → boundary_labels !! k = Some (-1)) ∧
    (∀ k', boundary_labels !! k' = Some l →
           boundary_labels !! k' = boundary_labels !! k).
Proof.
  split; [reflexivity|].
  apply (frame_analysis_whole_clusters boundary_labels boundary_frames).
  reflexivity.
Defined.

Lemma single_frame_cluster_discarded_witness :
  frame_analysis [0; 0; -1] [5; 5; 10] = Ok [-1; -1; -1] ∧
  (∀ k, [0; 0; -1] !! k = Some 0 → [5; 5; 10] !! k = Some 5) ∧
  ∀ k, [0; 0; -1] !! k = Some 0 → [-1; -1; -1] !! k = Some (-1).
Proof.
  assert (Hsame : ∀ k : nat,
            [0; 0; -1] !! k = Some 0 → [5; 5; 10] !! k = Some 5).
  { intros [|[|[|k]]] Hk; simpl in *; first [reflexivity | discriminate]. }
  split; [reflexivity|]. split; [exact Hsame|].
  apply (single_frame_cluster_discarded [0; 0; -1] [5; 5; 10] [-1; -1; -1]
           0 5); [reflexivity | exact Hsame].
Defined.

Lemma cluster_outside_window_discarded_witness :
  frame_analysis [0; 0; -1] [1; 2; 100] = Ok [-1; -1; -1] ∧
  np_max [1; 2; 100] = Ok 100 ∧
  (∀ (k : nat) f, [0; 0; -1] !! k = Some 0 → [1; 2; 100] !! k = Some f →
                  5 * f < 100) ∧
  ∀ k, [0; 0; -1] !! k = Some 0 → [-1; -1; -1] !! k = Some (-1).
Proof.
  assert (Hearly : ∀ (k : nat) f,
            [0; 0; -1] !! k = Some 0 → [1; 2; 100] !! k = Some f →
            5 * f < 100).
  { intros [|[|[|k]]] f Hk Hf; simpl in *; try discriminate;
      injection Hf as <-; lia. }
  split; [reflexivity|]. split; [reflexivity|]. split; [exact Hearly|].
  apply (cluster_outside_window_discarded [0; 0; -1] [1; 2; 100]
           [-1; -1; -1] 100 0); [reflexivity | reflexivity |].
  left. exact Hearly.
Defined.







Lemma _cluster_clustered_near_local_maximum_witness :
  wf_neighbors (query_ball two_pairs 100) ∧
  _cluster query_ball two_pairs 100 1 (Some [1; 2; 3; 4])
    = Ok [0; 0; -1; -1] ∧
  ∃ lm out0,
    local_maxima (query_ball two_pairs 100) 1 = Ok lm ∧
    _cluster query_ball two_pairs 100 1 None = Ok out0 ∧
    length [0; 0; -1; -1] = length out0 ∧
    ∀ (k : nat) v, [0; 0; -1; -1] !! k = Some v → v ≠ -1 →
      out0 !! k = Some v ∧
      ∃ i idx, lm !! i = Some 1 ∧
        query_ball two_pairs 100 !! i = Some idx ∧ k ∈ idx.
Proof.
  assert (Hwf : wf_neighbors (query_ball two_pairs 100)).
  { apply (bool_decide_unpack _). vm_compute. exact I. }
  split; [exact Hwf|]. split; [reflexivity|].
  apply (_cluster_clustered_near_local_maximum query_ball two_pairs 100 1
           (Some [1; 2; 3; 4]) [0; 0; -1; -1]); [exact Hwf | reflexivity].
Defined.

Lemma cluster_2D_raises_witness :
  (∀ X, length (all_within_radius X (Fin 10)) = length X ∧
        wf_neighbors (all_within_radius X (Fin 10))) ∧
  ((∃ out, cluster_2D all_within_radius (series [0; 1]%R) (series [0; 0]%R)
             [1; 2] (Fin 10) 1 true = Ok out) ↔
   length (series [0; 0]%R) = length (series [0; 1]%R) ∧
   (true = true →
    length [1; 2] = length (series [0; 1]%R) ∧ [1; 2] ≠ [])) ∧
  (∀ e, cluster_2D all_within_radius (series [0; 1]%R) (series [0; 0]%R)
          [1; 2] (Fin 10) 1 true = Err e → e = ValueError) ∧
  (∀ out, cluster_2D all_within_radius (series [0; 1]%R) (series [0; 0]%R)
            [1; 2] (Fin 10) 1 true = Ok out →
          length out = length (series [0; 1]%R)).
Proof.
  split; [intros X; apply all_within_radius_wf|].
  apply (cluster_2D_raises all_within_radius).
  intros X. apply all_within_radius_wf.
Defined.


Lemma three_locs_rows : rows three_locs 3.
Proof. unfold rows. simpl. repeat split. by intros zcol [= <-]. Qed.

Lemma cluster_raises_witness :
  (∀ X, length (all_within_radius X (Fin 10)) = length X ∧
        wf_neighbors (all_within_radius X (Fin 10))) ∧
  rows three_locs 3 ∧
  ((∃ out, cluster all_within_radius three_locs
             (Params6 (Fin 10) (Fin 20) 1 true) = Ok out) ↔
   (true = true → 3%nat ≠ 0%nat)) ∧
  (∀ e, cluster all_within_radius three_locs
          (Params6 (Fin 10) (Fin 20) 1 true) = Err e → e = ValueError) ∧
  (∀ out, cluster all_within_radius three_locs
            (Params6 (Fin 10) (Fin 20) 1 true) = Ok out →
          length out = 3%nat).
Proof.
  split; [intros X; apply all_within_radius_wf|].
  split; [exact three_locs_rows|].
  apply (cluster_raises all_within_radius three_locs
           (Params6 (Fin 10) (Fin 20) 1 true) 3).
  - intros X. apply all_within_radius_wf.
  - exact three_locs_rows.
Defined.






